(** * Spacecraft reliability: Monte Carlo estimator and analytical product

    A shallow embedding of [reliability.py].  Python floats are IEEE 754
    binary64 values, modelled by Rocq's primitive [float] (specified by
    [SpecFloat]); Python integers are [Z].  The ambient NumPy generator is
    an explicit state threaded through a small state monad. *)

From Stdlib Require Import ZArith List Bool Lia Zpower.
From Stdlib Require Import Floats.
Import ListNotations.

Set Warnings "-inexact-float".

(** * Part I: the model *)

(** ** Python values and exceptions *)

Inductive exn : Type :=
  | ZeroDivisionError
  | OverflowError.

Inductive result (A : Type) : Type :=
  | Ok (a : A)
  | Raise (e : exn).

Arguments Ok {A} a.
Arguments Raise {A} e.

(** An integer seen as the unrounded binary value [z * 2^0]. *)
Definition int_to_SF (z : Z) : spec_float :=
  match z with
  | Z0 => S754_zero false
  | Zpos p => S754_finite false p 0
  | Zneg p => S754_finite true p 0
  end.

(** [a / b] on two Python integers: true division, the correctly rounded
    (nearest, ties to even) binary64 quotient.  A zero divisor raises, and
    so does a quotient too large for a float. *)
Definition int_truediv (a b : Z) : result float :=
  if (b =? 0)%Z then Raise ZeroDivisionError
  else match SFdiv prec emax (int_to_SF a) (int_to_SF b) with
       | S754_infinity _ => Raise OverflowError
       | q => Ok (SF2Prim q)
       end.

(** ** The ambient random source and the monad of Python computations *)

(** [np.random], the global generator.  Its future outputs are fixed by
    its state, so the state is the tape of draws and a cursor on it. *)
Record Generator : Type := MkGenerator {
  tape : nat -> float;
  cursor : nat
}.

Definition advance (k : nat) (g : Generator) : Generator :=
  {| tape := tape g; cursor := k + cursor g |}.

Definition M (A : Type) : Type := Generator -> A * Generator.

Definition ret {A : Type} (a : A) : M A := fun g => (a, g).

Definition bind {A B : Type} (c : M A) (k : A -> M B) : M B :=
  fun g => let (a, g') := c g in k a g'.

Notation "x <- c ;; k" := (bind c (fun x => k))
  (at level 61, c at next level, right associativity).

(** [np.random.random()]: the next draw; the generator moves on by one. *)
Definition np_random_random : M float :=
  fun g => (tape g (cursor g), advance 1 g).

(** ** [for] loops *)

(** What the body of a loop asks for: go on with the next element, or
    [break]. *)
Inductive flow (S : Type) : Type :=
  | Next (s : S)
  | Break (s : S).

Arguments Next {S} s.
Arguments Break {S} s.

(** [for x in xs: body], on the variables [s] that the body assigns. *)
Fixpoint for_each {A S : Type} (xs : list A) (body : A -> S -> M (flow S))
    (s : S) : M S :=
  match xs with
  | [] => ret s
  | x :: rest =>
      r <- body x s ;;
      match r with
      | Next s' => for_each rest body s'
      | Break s' => ret s'
      end
  end.

(** [range(n)]: empty when [n <= 0]. *)
Definition range (n : Z) : list Z := map Z.of_nat (seq 0 (Z.to_nat n)).

(** ** The program *)

(** Lines 39-49: one trial, the loop over the subsystems with its [break]
    on the first failing draw; the value is [mission_success]. *)
Definition check_subsystems (failure_probs : list float) : M bool :=
  for_each failure_probs
    (fun fail_prob mission_success =>
       random_draw <- np_random_random ;;
       if (random_draw <? fail_prob)%float
       then ret (Break false)
       else ret (Next mission_success))
    true.

(** Lines 33-56.  Line 33 binds [n_subsystems = len(failure_probs)], which
    is never read. *)
Definition monte_carlo_reliability (failure_probs : list float)
    (n_samples : Z) : M (result float) :=
  successes <-
    for_each (range n_samples)
      (fun _ successes =>
         mission_success <- check_subsystems failure_probs ;;
         ret (Next (if mission_success then (successes + 1)%Z else successes)))
      0%Z ;;
  ret (int_truediv successes n_samples).

(** Lines 80-87. *)
Definition analytical_reliability (failure_probs : list float) : M float :=
  for_each failure_probs
    (fun fail_prob reliability =>
       let prob_works := (1.0 - fail_prob)%float in
       ret (Next (reliability * prob_works)%float))
    1.0%float.

(** ** The specification's vocabulary *)

(** A value of the closed interval [[0, 1]], by float comparison. *)
Definition in_unit (x : float) : bool := ((0 <=? x) && (x <=? 1))%float.

(** The product [w1 * w2 * ... * wn], evaluated from the left as Python
    does; the empty product is [1.0]. *)
Definition product (ws : list float) : float :=
  match ws with
  | [] => 1.0%float
  | w :: rest => fold_left PrimFloat.mul rest w
  end.

(** [(1 - p1) * (1 - p2) * ... * (1 - pn)]. *)
Definition product_of_working (failure_probs : list float) : float :=
  product (map (fun p => (1.0 - p)%float) failure_probs).

(** The vector with position [i] replaced by [p]. *)
Fixpoint replace_at (i : nat) (p : float) (ps : list float) {struct ps}
    : list float :=
  match ps, i with
  | [], _ => []
  | _ :: rest, O => p :: rest
  | q :: rest, S i' => q :: replace_at i' p rest
  end.

(** In a trial that starts in state [g], the draw made for subsystem [j]
    if the trial reaches it. *)
Definition draw_for (g : Generator) (j : nat) : float := tape g (cursor g + j).

(** Subsystem [j] draws a failure: its draw is strictly less than its
    failure probability. *)
Definition failure_drawn (failure_probs : list float) (g : Generator)
    (j : nat) : bool :=
  (draw_for g j <? nth j failure_probs nan)%float.

(** The first subsystem, in the given order, that draws a failure. *)
Definition first_failure (failure_probs : list float) (g : Generator)
    : option nat :=
  find (failure_drawn failure_probs g) (seq 0 (length failure_probs)).

(** A trial succeeds iff no subsystem drew a failure. *)
Definition trial_succeeds (failure_probs : list float) (g : Generator) : bool :=
  match first_failure failure_probs g with
  | None => true
  | Some _ => false
  end.

(** One draw per subsystem, the subsystems after the first failure being
    skipped. *)
Definition draws_made (failure_probs : list float) (g : Generator) : nat :=
  match first_failure failure_probs g with
  | None => length failure_probs
  | Some j => j + 1
  end.

Definition after_trial (failure_probs : list float) (g : Generator)
    : Generator :=
  advance (draws_made failure_probs g) g.

(** The state in which trial number [k] starts. *)
Definition trial_state (failure_probs : list float) (g : Generator) (k : nat)
    : Generator :=
  Nat.iter k (after_trial failure_probs) g.

(** The number of successful trials among the first [n]. *)
Definition successful_trials (failure_probs : list float) (g : Generator)
    (n : nat) : Z :=
  Z.of_nat
    (length
       (filter (fun k => trial_succeeds failure_probs (trial_state failure_probs g k))
          (seq 0 n))).

(** ** Inputs for the examples *)

(** A generator for the examples: a draw of [0.005] at every third
    position among draws of [0.5]. *)
Definition example_generator : Generator :=
  {| tape := fun i => if Nat.eqb (Nat.modulo i 3) 0 then 0.005%float else 0.5%float;
     cursor := 0 |}.

Definition example_probs : list float := [0.01; 0.02; 0.015; 0.01; 0.025]%float.

(** A generator that coincides with [example_generator] on its first eight
    draws only. *)
Definition other_generator : Generator :=
  {| tape := fun i => if Nat.ltb i 8 then tape example_generator i else 0.75%float;
     cursor := 0 |}.

(** ** The draws two generators share *)

(** Two generators at the same position whose next [k] draws coincide. *)
Definition agree_on (k : nat) (g1 g2 : Generator) : Prop :=
  cursor g1 = cursor g2 /\ forall i, i < k -> draw_for g1 i = draw_for g2 i.

(** ** Binary64 rounding, on integers *)

Local Open Scope Z_scope.

(** Round to nearest, ties to even, of [m / 2^n]. *)
Definition RNE (m n : Z) : Z :=
  let q := m / 2 ^ n in
  match 2 * (m mod 2 ^ n) ?= 2 ^ n with
  | Lt => q
  | Eq => if Z.even q then q else q + 1
  | Gt => q + 1
  end.

(** [R k V] is the binary64 rounding of the real number [V * 2^-(1074+k)]
    of the unit interval, counted in units of [2^-1074]: [V] keeps its 53
    leading bits at most, and loses its [k] lowest bits at least. *)
Definition R (k V : Z) : Z :=
  let T := Z.max (Zdigits2 V - 53) k in
  RNE V T * 2 ^ (T - k).

(** The last step of [binary_round_aux]: the float of mantissa [m] and
    exponent [e], or an infinity when the exponent is too large. *)
Definition fin (s : bool) (m e : Z) : spec_float :=
  match m with
  | Z0 => S754_zero s
  | Zpos p => if e <=? emax - prec then S754_finite s p e else S754_infinity s
  | Zneg _ => S754_nan
  end.

(** The float of a rounded mantissa [M <= 2^53] at exponent [t]. *)
Definition mk (s : bool) (M t : Z) : spec_float :=
  if M =? 2 ^ 53 then fin s (2 ^ 52) (t + 1) else fin s M t.

(** A non-negative float below [2], as a multiple of [2^-1074]. *)
Definition ulps (x : spec_float) : Z :=
  match x with
  | S754_finite false m e => Zpos m * 2 ^ (e + 1074)
  | _ => 0
  end.

Definition nonneg_class (z : spec_float) : Prop :=
  match z with
  | S754_zero _ | S754_finite false _ _ => True
  | _ => False
  end.

(** The binary64 values of the unit interval. *)
Definition SFunit (x : spec_float) : Prop :=
  valid_binary x = true /\
  match x with
  | S754_zero _ => True
  | S754_finite false m e => Zpos m * 2 ^ (e + 1074) <= 2 ^ 1074
  | _ => False
  end.

Definition N (x : float) : Z := ulps (Prim2SF x).

(** * Part II: binary64 arithmetic on the unit interval *)

Lemma digits2_pos_bounds (p : positive) :
  2 ^ (Zpos (digits2_pos p) - 1) <= Zpos p < 2 ^ Zpos (digits2_pos p).
Proof.
  induction p as [p IH | p IH |]; cbn [digits2_pos].
  - rewrite Pos2Z.inj_succ, (Pos2Z.inj_xI p).
    replace (Z.succ (Zpos (digits2_pos p)) - 1) with (Z.succ (Zpos (digits2_pos p) - 1)) by lia.
    rewrite !Z.pow_succ_r by lia.
    revert IH. generalize (2 ^ (Zpos (digits2_pos p) - 1)) (2 ^ Zpos (digits2_pos p)). lia.
  - rewrite Pos2Z.inj_succ, (Pos2Z.inj_xO p).
    replace (Z.succ (Zpos (digits2_pos p)) - 1) with (Z.succ (Zpos (digits2_pos p) - 1)) by lia.
    rewrite !Z.pow_succ_r by lia.
    revert IH. generalize (2 ^ (Zpos (digits2_pos p) - 1)) (2 ^ Zpos (digits2_pos p)). lia.
  - cbn. lia.
Qed.

Lemma pow2_pos (k : Z) : 0 <= k -> 0 < 2 ^ k.
Proof. intros; apply Z.pow_pos_nonneg; lia. Qed.

Lemma pow2_le (a b : Z) : 0 <= a <= b -> 2 ^ a <= 2 ^ b.
Proof. intros; apply Z.pow_le_mono_r; lia. Qed.

Lemma pow2_lt (a b : Z) : 0 <= a < b -> 2 ^ a < 2 ^ b.
Proof. intros; apply Z.pow_lt_mono_r; lia. Qed.

Lemma pow2_split (a b : Z) : 0 <= a -> 0 <= b -> 2 ^ (a + b) = 2 ^ a * 2 ^ b.
Proof. intros; apply Z.pow_add_r; lia. Qed.

Lemma Zdigits2_bounds (m : Z) :
  0 < m -> 0 < Zdigits2 m /\ 2 ^ (Zdigits2 m - 1) <= m < 2 ^ Zdigits2 m.
Proof.
  destruct m as [| p | p]; try lia. intros _. cbn [Zdigits2].
  split; [lia | apply digits2_pos_bounds].
Qed.

Lemma Zdigits2_unique (m k : Z) :
  2 ^ (k - 1) <= m < 2 ^ k -> 0 < k -> Zdigits2 m = k.
Proof.
  intros [Hlo Hhi] Hk.
  assert (Hm : 0 < m) by (pose proof (pow2_pos (k - 1)); lia).
  destruct (Zdigits2_bounds m Hm) as (Hd & Hdl & Hdh).
  destruct (Z.lt_trichotomy (Zdigits2 m) k) as [H | [H | H]]; [exfalso | exact H | exfalso].
  - assert (2 ^ Zdigits2 m <= 2 ^ (k - 1)) by (apply pow2_le; lia). lia.
  - assert (2 ^ k <= 2 ^ (Zdigits2 m - 1)) by (apply pow2_le; lia). lia.
Qed.

Lemma Zdigits2_nonneg (m : Z) : 0 <= Zdigits2 m.
Proof. destruct m; cbn; lia. Qed.

Lemma Zdigits2_le (a b : Z) : 0 <= a <= b -> Zdigits2 a <= Zdigits2 b.
Proof.
  intros [Ha Hab].
  destruct (Z.eq_dec a 0) as [-> | Hne]; [apply Zdigits2_nonneg |].
  destruct (Zdigits2_bounds a) as (Hd & Hdl & Hdh); [lia |].
  destruct (Zdigits2_bounds b) as (He & Hel & Heh); [lia |].
  destruct (Z_lt_le_dec (Zdigits2 b) (Zdigits2 a)) as [H | H]; [exfalso | exact H].
  assert (2 ^ Zdigits2 b <= 2 ^ (Zdigits2 a - 1)) by (apply pow2_le; lia). lia.
Qed.

Lemma Zdigits2_mul_pow2 (m k : Z) :
  0 < m -> 0 <= k -> Zdigits2 (m * 2 ^ k) = Zdigits2 m + k.
Proof.
  intros Hm Hk.
  destruct (Zdigits2_bounds m Hm) as (Hd & Hdl & Hdh).
  apply Zdigits2_unique; [| lia].
  replace (Zdigits2 m + k - 1) with (Zdigits2 m - 1 + k) by lia.
  rewrite !Z.pow_add_r by lia.
  pose proof (pow2_pos k Hk). nia.
Qed.

Lemma RNE_bounds (m n : Z) : m / 2 ^ n <= RNE m n <= m / 2 ^ n + 1.
Proof.
  unfold RNE. cbv zeta. destruct (Z.compare _ _); try destruct (Z.even _); lia.
Qed.

Lemma RNE_exact (c n : Z) : 0 <= n -> RNE (c * 2 ^ n) n = c.
Proof.
  intros Hn. unfold RNE. pose proof (pow2_pos n Hn).
  rewrite Z.mod_mul, Z.div_mul by lia.
  assert (E : (2 * 0 ?= 2 ^ n) = Lt) by (apply Z.compare_lt_iff; lia).
  cbv zeta. rewrite E. reflexivity.
Qed.

Lemma RNE_0 (m : Z) : RNE m 0 = m.
Proof. rewrite <- (RNE_exact m 0) at 2 by lia. now rewrite Z.pow_0_r, Z.mul_1_r. Qed.

Lemma RNE_mono (m1 m2 n : Z) : 0 <= n -> m1 <= m2 -> RNE m1 n <= RNE m2 n.
Proof.
  intros Hn Hm. pose proof (pow2_pos n Hn) as Hp.
  assert (Hq : m1 / 2 ^ n <= m2 / 2 ^ n) by (apply Z.div_le_mono; lia).
  destruct (Z.eq_dec (m1 / 2 ^ n) (m2 / 2 ^ n)) as [E | NE].
  - pose proof (Z.div_mod m1 (2 ^ n)) as D1. pose proof (Z.div_mod m2 (2 ^ n)) as D2.
    assert (Hr : m1 mod 2 ^ n <= m2 mod 2 ^ n) by (rewrite E in D1; lia).
    unfold RNE. rewrite E.
    destruct (Z.compare_spec (2 * (m1 mod 2 ^ n)) (2 ^ n));
      destruct (Z.compare_spec (2 * (m2 mod 2 ^ n)) (2 ^ n));
      try destruct (Z.even _); lia.
  - pose proof (RNE_bounds m1 n). pose proof (RNE_bounds m2 n). lia.
Qed.

Lemma RNE_scale (m n k : Z) :
  0 <= n -> 0 <= k -> RNE (m * 2 ^ k) (n + k) = RNE m n.
Proof.
  intros Hn Hk. unfold RNE.
  pose proof (pow2_pos n Hn). pose proof (pow2_pos k Hk).
  rewrite Z.pow_add_r by lia.
  rewrite Z.div_mul_cancel_r by lia.
  rewrite Z.mul_mod_distr_r by lia.
  replace (2 * (m mod 2 ^ n * 2 ^ k)) with ((2 * (m mod 2 ^ n)) * 2 ^ k) by ring.
  rewrite <- Zmult_compare_compat_r by lia. reflexivity.
Qed.

(** ** The shifting loop of [SpecFloat] *)

Lemma iter_pos_nat {A : Type} (f : A -> A) (p : positive) (x : A) :
  iter_pos f p x = Nat.iter (Pos.to_nat p) f x.
Proof.
  revert x; induction p as [p IH | p IH |]; intros x; cbn [iter_pos].
  - rewrite !IH, Pos2Nat.inj_xI.
    replace (S (2 * Pos.to_nat p))%nat with (Pos.to_nat p + (Pos.to_nat p + 1))%nat by lia.
    rewrite !Nat.iter_add. reflexivity.
  - rewrite !IH, Pos2Nat.inj_xO.
    replace (2 * Pos.to_nat p)%nat with (Pos.to_nat p + Pos.to_nat p)%nat by lia.
    rewrite Nat.iter_add. reflexivity.
  - reflexivity.
Qed.

Lemma shr_1_spec (m : Z) (r s : bool) :
  0 <= m ->
  shr_1 (Build_shr_record m r s) = Build_shr_record (m / 2) (Z.odd m) (r || s).
Proof.
  intros Hm. rewrite <- Z.div2_div.
  destruct m as [| [p | p |] | p]; try lia; reflexivity.
Qed.

Lemma mod2_odd (a : Z) : a mod 2 = Z.b2z (Z.odd a).
Proof. now rewrite <- Z.bit0_odd, Z.bit0_mod. Qed.

Lemma shr_iter_spec (m : Z) (r0 s0 : bool) (k : nat) :
  0 <= m ->
  Nat.iter (S k) shr_1 (Build_shr_record m r0 s0) =
  Build_shr_record (m / 2 ^ Z.of_nat (S k)) (Z.odd (m / 2 ^ Z.of_nat k))
    (r0 || s0 || negb (m mod 2 ^ Z.of_nat k =? 0)).
Proof.
  intros Hm. induction k as [| k IH].
  - cbn [Nat.iter nat_rect]. rewrite shr_1_spec by lia.
    change (2 ^ Z.of_nat 1) with 2. change (2 ^ Z.of_nat 0) with 1.
    rewrite Z.div_1_r, Z.mod_1_r. cbn. now rewrite orb_false_r.
  - change (Nat.iter (S (S k)) shr_1 ?x) with (shr_1 (Nat.iter (S k) shr_1 x)).
    rewrite IH.
    assert (Hp : 0 < 2 ^ Z.of_nat k) by (apply pow2_pos; lia).
    assert (Hq : 0 <= m / 2 ^ Z.of_nat (S k)) by (apply Z.div_pos; [lia | apply pow2_pos; lia]).
    rewrite shr_1_spec by exact Hq.
    f_equal.
    + rewrite Z.div_div by (try apply pow2_pos; lia).
      f_equal. rewrite (Nat2Z.inj_succ (S k)), Z.pow_succ_r by lia. ring.
    + rewrite (Nat2Z.inj_succ k), Z.pow_succ_r by lia.
      rewrite (Z.mul_comm 2), Z.rem_mul_r by lia.
      rewrite mod2_odd.
      pose proof (Z.mod_pos_bound m (2 ^ Z.of_nat k) Hp) as Hb.
      destruct (Z.odd (m / 2 ^ Z.of_nat k)); cbn [Z.b2z].
      * destruct (Z.eqb_spec (m mod 2 ^ Z.of_nat k + 2 ^ Z.of_nat k * 1) 0); [lia |].
        cbn. now rewrite !orb_true_r.
      * rewrite Z.mul_0_r, Z.add_0_r. cbn [orb]. reflexivity.
Qed.

Lemma round_nearest_even_bounds (x : Z) (l : location) :
  x <= round_nearest_even x l <= x + 1.
Proof.
  destruct l as [| []]; cbn; try destruct (Z.even x); lia.
Qed.

Lemma shr_m_iter (m : Z) (r0 s0 : bool) (p : positive) :
  0 <= m ->
  shr_m (iter_pos shr_1 p (Build_shr_record m r0 s0)) = m / 2 ^ Zpos p.
Proof.
  intros Hm. rewrite iter_pos_nat.
  destruct (Pos.to_nat p) as [| k] eqn:E; [lia |].
  rewrite shr_iter_spec by lia. cbn [shr_m]. now rewrite <- E, positive_nat_Z.
Qed.

Lemma shr_iter_RNE (m : Z) (p : positive) :
  0 <= m ->
  let mrs := iter_pos shr_1 p (Build_shr_record m false false) in
  round_nearest_even (shr_m mrs) (loc_of_shr_record mrs) = RNE m (Zpos p).
Proof.
  intros Hm. cbv zeta. rewrite iter_pos_nat.
  destruct (Pos.to_nat p) as [| k] eqn:E; [lia |].
  rewrite shr_iter_spec by lia.
  replace (Zpos p) with (Z.of_nat (S k)) by (rewrite <- E; apply positive_nat_Z).
  unfold RNE. cbn [shr_m loc_of_shr_record orb].
  set (q := m / 2 ^ Z.of_nat (S k)).
  assert (Hp : 0 < 2 ^ Z.of_nat k) by (apply pow2_pos; lia).
  rewrite (Nat2Z.inj_succ k), Z.pow_succ_r by lia.
  rewrite (Z.mul_comm 2 (2 ^ _)) at 1. rewrite Z.rem_mul_r by lia.
  rewrite mod2_odd.
  pose proof (Z.mod_pos_bound m (2 ^ Z.of_nat k) Hp) as Hb.
  destruct (Z.odd (m / 2 ^ Z.of_nat k)); cbn [Z.b2z];
    destruct (Z.eqb_spec (m mod 2 ^ Z.of_nat k) 0) as [E0 | E0]; cbn [negb];
    match goal with |- context [?a ?= ?b] => destruct (Z.compare_spec a b) end;
    cbn [round_nearest_even]; try reflexivity; try lia.
Qed.

(** ** Rounding in binary64 *)

Lemma fexp_eq (x : Z) : fexp prec emax x = Z.max (x - 53) (-1074).
Proof. reflexivity. Qed.

Lemma shr_record_of_loc_m (m : Z) (l : location) : shr_m (shr_record_of_loc m l) = m.
Proof. destruct l as [| []]; reflexivity. Qed.

Lemma loc_of_shr_record_of_loc (m : Z) (l : location) :
  loc_of_shr_record (shr_record_of_loc m l) = l.
Proof. destruct l as [| []]; reflexivity. Qed.

Lemma renormalize_spec (s : bool) (M t : Z) :
  0 <= M <= 2 ^ 53 -> -1074 <= t ->
  (let '(mrs, e) := shr_fexp prec emax M t loc_Exact in
   match shr_m mrs with
   | Z0 => S754_zero s
   | Zpos m => if e <=? emax - prec then S754_finite s m e else S754_infinity s
   | Zneg _ => S754_nan
   end) = mk s M t.
Proof.
  intros HM Ht. unfold mk, shr_fexp. rewrite fexp_eq.
  destruct (Z.eqb_spec M (2 ^ 53)) as [-> | Hne].
  - change (Zdigits2 (2 ^ 53)) with 54.
    replace (Z.max (54 + t - 53) (-1074) - t) with 1 by lia.
    reflexivity.
  - assert (Hd : Zdigits2 M <= 53).
    { destruct (Z.eq_dec M 0) as [-> | H0]; [cbn; lia |].
      destruct (Zdigits2_bounds M) as (Hd & Hl & Hh); [lia |].
      destruct (Z_le_gt_dec (Zdigits2 M) 53) as [H | H]; [exact H | exfalso].
      assert (2 ^ 53 <= 2 ^ (Zdigits2 M - 1)) by (apply pow2_le; lia). lia. }
    assert (Hn : Z.max (Zdigits2 M + t - 53) (-1074) - t <= 0) by lia.
    unfold shr. destruct (Z.max (Zdigits2 M + t - 53) (-1074) - t) as [| p | p] eqn:E; try lia;
      cbn [shr_record_of_loc shr_m]; reflexivity.
Qed.

Lemma binary_round_aux_shape (s : bool) (m e : Z) (l : location) :
  0 <= m ->
  let n := fexp prec emax (Zdigits2 m + e) - e in
  0 <= n ->
  exists M : Z,
    binary_round_aux prec emax s m e l = mk s M (e + n) /\
    m / 2 ^ n <= M <= m / 2 ^ n + 1 /\
    (l = loc_Exact -> M = RNE m n) /\
    M <= 2 ^ 53 /\ (e + n = -1074 \/ 2 ^ 52 <= M).
Proof.
  intros Hm n Hn.
  assert (Hfe : -1074 <= e + n) by (unfold n; rewrite fexp_eq; lia).
  assert (Hq : 0 <= m / 2 ^ n < 2 ^ 53).
  { split; [apply Z.div_pos; [lia | apply pow2_pos; lia] |].
    apply Z.div_lt_upper_bound; [apply pow2_pos; lia |].
    rewrite <- Z.pow_add_r by lia.
    destruct (Z.eq_dec m 0) as [-> | H0]; [apply pow2_pos; lia |].
    destruct (Zdigits2_bounds m) as (Hd & Hl & Hh); [lia |].
    assert (2 ^ Zdigits2 m <= 2 ^ (n + 53)); [| lia].
    apply pow2_le. unfold n. rewrite fexp_eq. lia. }
  assert (Hnorm : e + n = -1074 \/ 2 ^ 52 <= m / 2 ^ n).
  { destruct (Z.eq_dec (e + n) (-1074)) as [E | NE]; [now left | right].
    assert (Hm0 : 0 < m).
    { destruct (Z.eq_dec m 0) as [E | E]; [| lia]. subst m. exfalso.
      unfold n in NE, Hn. rewrite fexp_eq in NE, Hn. cbn [Zdigits2] in NE, Hn. lia. }
    destruct (Zdigits2_bounds m Hm0) as (Hd & Hl & Hh).
    assert (En : n = Zdigits2 m - 53) by (unfold n in *; rewrite fexp_eq in *; lia).
    apply Z.div_le_lower_bound; [apply pow2_pos; lia |].
    rewrite Z.mul_comm, <- pow2_split by lia.
    replace (52 + n) with (Zdigits2 m - 1) by lia. exact Hl. }
  unfold binary_round_aux, shr_fexp. fold n.
  destruct n as [| p | p] eqn:En; [| | lia].
  - (* no shift *)
    unfold shr at 1. rewrite shr_record_of_loc_m, loc_of_shr_record_of_loc.
    exists (round_nearest_even m l).
    change (2 ^ 0) with 1 in *. rewrite Z.div_1_r in *.
    pose proof (round_nearest_even_bounds m l).
    split; [| split; [| split; [| split]]].
    + rewrite Z.add_0_r in *. apply renormalize_spec; lia.
    + lia.
    + intros ->. now rewrite RNE_0.
    + lia.
    + lia.
  - (* shift right by [p] *)
    unfold shr at 1.
    set (mrs := iter_pos shr_1 p (shr_record_of_loc m l)).
    exists (round_nearest_even (shr_m mrs) (loc_of_shr_record mrs)).
    assert (Hs : shr_m mrs = m / 2 ^ Zpos p).
    { unfold mrs. destruct l as [| []]; apply shr_m_iter; lia. }
    pose proof (round_nearest_even_bounds (shr_m mrs) (loc_of_shr_record mrs)) as Hb.
    split; [| split; [| split; [| split]]].
    + apply renormalize_spec; lia.
    + rewrite <- Hs. exact Hb.
    + intros ->. unfold mrs. apply shr_iter_RNE. lia.
    + lia.
    + lia.
Qed.

Lemma mk_valid (s : bool) (M t : Z) :
  0 <= M <= 2 ^ 53 -> -1074 <= t <= 970 -> t = -1074 \/ 2 ^ 52 <= M ->
  valid_binary (mk s M t) = true.
Proof.
  intros HM Ht Hn. unfold mk.
  destruct (Z.eqb_spec M (2 ^ 53)) as [-> | Hne].
  - change (2 ^ 52) with (Zpos (2 ^ 52)). cbn [fin]. change (emax - prec) with 971.
    destruct (Z.leb_spec (t + 1) 971); [| reflexivity].
    cbn [SpecFloat.valid_binary]. unfold bounded, canonical_mantissa.
    rewrite fexp_eq. change (Zpos (digits2_pos (2 ^ 52))) with 53.
    change (emax - prec) with 971.
    apply andb_true_iff; split; [apply Z.eqb_eq | apply Z.leb_le]; lia.
  - destruct M as [| p | p]; [reflexivity | | lia]. cbn [fin].
    change (emax - prec) with 971.
    destruct (Z.leb_spec t 971); [| reflexivity].
    cbn [SpecFloat.valid_binary]. unfold bounded, canonical_mantissa.
    rewrite fexp_eq. change (emax - prec) with 971.
    change (Zpos (digits2_pos p)) with (Zdigits2 (Zpos p)).
    destruct (Zdigits2_bounds (Zpos p)) as (Hd & Hl & Hh); [lia |].
    assert (Hd53 : Zdigits2 (Zpos p) <= 53).
    { destruct (Z_le_gt_dec (Zdigits2 (Zpos p)) 53) as [H' | H']; [exact H' | exfalso].
      assert (2 ^ 53 <= 2 ^ (Zdigits2 (Zpos p) - 1)) by (apply pow2_le; lia). lia. }
    apply andb_true_iff; split; [apply Z.eqb_eq | apply Z.leb_le; lia].
    destruct Hn as [-> | Hn]; [lia |].
    assert (Zdigits2 (Zpos p) = 53); [| lia].
    destruct (Z_le_gt_dec 53 (Zdigits2 (Zpos p))) as [H' | H']; [lia | exfalso].
    assert (2 ^ Zdigits2 (Zpos p) <= 2 ^ 52) by (apply pow2_le; lia). lia.
Qed.

(** ** Valid binary64 values *)

Lemma valid_finite_inv (s : bool) (m : positive) (e : Z) :
  valid_binary (S754_finite s m e) = true ->
  fexp prec emax (Zdigits2 (Zpos m) + e) = e /\ e <= 971.
Proof.
  cbn [SpecFloat.valid_binary]. unfold bounded, canonical_mantissa.
  rewrite andb_true_iff, Z.eqb_eq, Z.leb_le. cbn [Zdigits2].
  change (emax - prec) with 971. tauto.
Qed.

Lemma valid_finite_digits (s : bool) (m : positive) (e : Z) :
  valid_binary (S754_finite s m e) = true ->
  -1074 <= e <= 971 /\ Zdigits2 (Zpos m) <= 53 /\
  (e = -1074 \/ Zdigits2 (Zpos m) = 53) /\ Zpos m < 2 ^ 53.
Proof.
  intros Hv. apply valid_finite_inv in Hv. destruct Hv as [Hc He].
  rewrite fexp_eq in Hc.
  destruct (Zdigits2_bounds (Zpos m)) as (Hd & Hl & Hh); [lia |].
  assert (Hd53 : Zdigits2 (Zpos m) <= 53) by lia.
  assert (2 ^ Zdigits2 (Zpos m) <= 2 ^ 53) by (apply pow2_le; lia).
  repeat split; lia.
Qed.

Lemma mul_one_l_SF (x : spec_float) :
  valid_binary x = true -> SF64mul (Prim2SF 1) x = x.
Proof.
  intros Hv. change (Prim2SF 1) with (S754_finite false (2 ^ 52) (-52)).
  destruct x as [s | s | | s m e]; try reflexivity.
  unfold SF64mul, SFmul. cbn [xorb].
  destruct (valid_finite_inv _ _ _ Hv) as [Hc He].
  destruct (valid_finite_digits _ _ _ Hv) as (Hr & Hd & _ & Hlt).
  rewrite Pos2Z.inj_mul. change (Zpos (2 ^ 52)) with (2 ^ 52).
  rewrite (Z.mul_comm (2 ^ 52)).
  assert (Hn : fexp prec emax (Zdigits2 (Zpos m * 2 ^ 52) + (-52 + e)) - (-52 + e) = 52).
  { rewrite Zdigits2_mul_pow2 by lia.
    replace (Zdigits2 (Zpos m) + 52 + (-52 + e)) with (Zdigits2 (Zpos m) + e) by lia.
    rewrite Hc. lia. }
  destruct (binary_round_aux_shape s (Zpos m * 2 ^ 52) (-52 + e) loc_Exact)
    as (M & HM & _ & HR & _); [lia | lia |].
  rewrite Hn in HM, HR. rewrite HM, (HR eq_refl), RNE_exact by lia.
  unfold mk. destruct (Z.eqb_spec (Zpos m) (2 ^ 53)) as [E | _]; [lia |].
  replace (-52 + e + 52) with e by lia.
  unfold fin. change (emax - prec) with 971.
  destruct (Z.leb_spec e 971); [reflexivity | lia].
Qed.

Lemma mul_one_l (x : float) : (1 * x)%float = x.
Proof.
  apply Prim2SF_inj. rewrite mul_spec. apply mul_one_l_SF, Prim2SF_valid.
Qed.

(** ** Floats of the unit interval, as multiples of [2^-1074] *)

Lemma SFunit_exponent (m : positive) (e : Z) :
  SFunit (S754_finite false m e) -> -1074 <= e <= -52.
Proof.
  intros [Hv Hb].
  destruct (valid_finite_digits _ _ _ Hv) as (Hr & Hd & Hn & Hlt).
  split; [lia |].
  destruct (Z_le_gt_dec e (-52)) as [H | H]; [exact H | exfalso].
  destruct Hn as [Hn | Hn]; [lia |].
  destruct (Zdigits2_bounds (Zpos m)) as (_ & Hl & _); [lia |].
  rewrite Hn in Hl. change (2 ^ (53 - 1)) with (2 ^ 52) in Hl.
  assert (H1 : 2 ^ 1023 <= 2 ^ (e + 1074)) by (apply pow2_le; lia).
  assert (H2 : 2 ^ 52 * 2 ^ 1023 <= Zpos m * 2 ^ (e + 1074)).
  { apply Z.mul_le_mono_nonneg; lia. }
  change (2 ^ 52 * 2 ^ 1023) with (2 * 2 ^ 1074) in H2.
  pose proof (pow2_pos 1074). lia.
Qed.

Lemma in_unit_SFunit (x : float) : in_unit x = true <-> SFunit (Prim2SF x).
Proof.
  unfold in_unit. rewrite andb_true_iff, !leb_spec.
  change (Prim2SF 0) with (S754_zero false).
  change (Prim2SF 1) with (S754_finite false (2 ^ 52) (-52)).
  pose proof (Prim2SF_valid x) as Hv. unfold SFunit.
  destruct (Prim2SF x) as [s | [] | | [] m e]; cbn [SFleb SFcompare];
    try (split; [intros [? ?]; try discriminate | intros [_ []]]; auto; fail);
    try (split; auto; fail).
  destruct (valid_finite_digits _ _ _ Hv) as (Hr & Hd & Hn & Hlt).
  unfold SFleb, SFcompare.
  destruct (Z.compare_spec e (-52)) as [E | E | E].
  - subst e. change (2 ^ (-52 + 1074)) with (2 ^ 1022).
    rewrite Pos.compare_cont_spec. cbn [Pos.switch_Eq].
    change (2 ^ 1074) with (2 ^ 52 * 2 ^ 1022).
    pose proof (pow2_pos 1022).
    destruct (Pos.compare_spec m (2 ^ 52)) as [E | E | E].
    + subst m. split; [intros _; split; [exact Hv | lia] | auto].
    + split; [intros _; split; [exact Hv |] | auto].
      apply Z.mul_le_mono_nonneg_r; lia.
    + split; [intros [_ ?]; discriminate |]. intros [_ H1]. exfalso.
      apply Z.mul_le_mono_pos_r in H1; lia.
  - split; [intros _; split; [exact Hv |] | auto].
    assert (H1 : 2 ^ (e + 1074) <= 2 ^ 1021) by (apply pow2_le; lia).
    assert (H2 : Zpos m * 2 ^ (e + 1074) <= 2 ^ 53 * 2 ^ 1021).
    { apply Z.mul_le_mono_nonneg; lia. }
    change (2 ^ 53 * 2 ^ 1021) with (2 ^ 1074) in H2. exact H2.
  - split; [intros [_ ?]; discriminate |]. intros [_ H1]. exfalso.
    pose proof (SFunit_exponent m e (conj Hv H1)). lia.
Qed.

Lemma ulps_lt_of_exponent (s1 s2 : bool) (m1 m2 : positive) (e1 e2 : Z) :
  valid_binary (S754_finite s1 m1 e1) = true ->
  valid_binary (S754_finite s2 m2 e2) = true ->
  e1 < e2 ->
  Zpos m1 * 2 ^ (e1 + 1074) < Zpos m2 * 2 ^ (e2 + 1074).
Proof.
  intros H1 H2 He.
  destruct (valid_finite_digits _ _ _ H1) as (Hr1 & Hd1 & Hn1 & Hlt1).
  destruct (valid_finite_digits _ _ _ H2) as (Hr2 & Hd2 & Hn2 & Hlt2).
  destruct Hn2 as [Hn2 | Hn2]; [lia |].
  destruct (Zdigits2_bounds (Zpos m2)) as (_ & Hl2 & _); [lia |].
  rewrite Hn2 in Hl2. change (2 ^ (53 - 1)) with (2 ^ 52) in Hl2.
  replace (e2 + 1074) with ((e2 - e1 - 1) + 1 + (e1 + 1074)) by lia.
  remember (e1 + 1074) as a eqn:Ea. remember (e2 - e1 - 1) as b eqn:Eb.
  pose proof (pow2_pos a) as P1.
  rewrite !pow2_split by lia. change (2 ^ 1) with 2.
  pose proof (pow2_pos b) as P2.
  assert (Zpos m1 < Zpos m2 * (2 ^ b * 2)); [| nia].
  assert (2 ^ 53 <= Zpos m2 * (2 ^ b * 2)); [| lia].
  change (2 ^ 53) with (2 ^ 52 * (1 * 2)).
  apply Z.mul_le_mono_nonneg; lia.
Qed.

Lemma SFcompare_ulps (x y : spec_float) :
  SFunit x -> SFunit y -> SFcompare x y = Some (ulps x ?= ulps y).
Proof.
  intros [Hvx Hx] [Hvy Hy].
  destruct x as [sx | | | [] mx ex]; try contradiction;
    destruct y as [sy | | | [] my ey]; try contradiction; cbn [SFcompare ulps].
  - reflexivity.
  - pose proof (SFunit_exponent my ey (conj Hvy Hy)).
    pose proof (pow2_pos (ey + 1074)).
    f_equal. symmetry. apply Z.compare_lt_iff. nia.
  - pose proof (SFunit_exponent mx ex (conj Hvx Hx)).
    pose proof (pow2_pos (ex + 1074)).
    f_equal. symmetry. apply Z.compare_gt_iff. nia.
  - f_equal. destruct (Z.compare_spec ex ey) as [E | E | E].
    + subst ey. rewrite Pos.compare_cont_spec. cbn [Pos.switch_Eq].
      pose proof (SFunit_exponent mx ex (conj Hvx Hx)).
      rewrite <- Zmult_compare_compat_r by (apply Z.lt_gt, pow2_pos; lia).
      cbn [Z.compare]. now destruct (mx ?= my)%positive.
    + symmetry. apply Z.compare_lt_iff. eapply ulps_lt_of_exponent; eauto.
    + symmetry. apply Z.compare_gt_iff. eapply ulps_lt_of_exponent; eauto.
Qed.

Lemma ulps_unit_bounds (x : spec_float) : SFunit x -> 0 <= ulps x <= 2 ^ 1074.
Proof.
  intros [Hv Hx]. pose proof (pow2_pos 1074).
  destruct x as [s | | | [] m e]; try contradiction; cbn [ulps]; lia.
Qed.

(** ** Rounding an exact value to binary64 *)

Lemma R_0 (k : Z) : 0 <= k -> R k 0 = 0.
Proof.
  intros Hk. unfold R. cbn [Zdigits2].
  replace (Z.max (0 - 53) k) with k by lia.
  rewrite <- (Z.mul_0_l (2 ^ k)) at 1. rewrite RNE_exact by lia. lia.
Qed.

Lemma Zdigits2_pow2 (j : Z) : 0 <= j -> Zdigits2 (2 ^ j) = j + 1.
Proof.
  intros Hj. apply Zdigits2_unique; [| lia].
  replace (j + 1 - 1) with j by lia. split; [lia | apply pow2_lt; lia].
Qed.

Lemma RNE_pow2 (j T : Z) : 0 <= T <= j -> RNE (2 ^ j) T = 2 ^ (j - T).
Proof.
  intros H. replace j with ((j - T) + T) at 1 by lia.
  rewrite pow2_split by lia. apply RNE_exact; lia.
Qed.

Lemma R_pow2 (k j : Z) : 0 <= k <= j -> R k (2 ^ j) = 2 ^ (j - k).
Proof.
  intros H. unfold R. rewrite Zdigits2_pow2 by lia.
  set (T := Z.max (j + 1 - 53) k).
  rewrite RNE_pow2 by lia. rewrite <- pow2_split by lia. f_equal. lia.
Qed.

Lemma R_mono (k V1 V2 : Z) : 0 <= k -> 0 <= V1 <= V2 -> R k V1 <= R k V2.
Proof.
  intros Hk [H1 H12]. unfold R.
  pose proof (Zdigits2_le V1 V2 (conj H1 H12)) as Hd.
  set (T1 := Z.max (Zdigits2 V1 - 53) k). set (T2 := Z.max (Zdigits2 V2 - 53) k).
  destruct (Z.eq_dec T1 T2) as [E | NE].
  - rewrite <- E. apply Z.mul_le_mono_nonneg_r.
    + apply Z.lt_le_incl, pow2_pos; lia.
    + apply RNE_mono; lia.
  - assert (HT : T1 < T2) by lia.
    assert (HT2 : T2 = Zdigits2 V2 - 53) by lia.
    assert (Hd12 : Zdigits2 V1 < Zdigits2 V2) by lia.
    assert (HV2 : 0 < V2).
    { destruct (Z.eq_dec V2 0) as [E | E]; [| lia]. subst V2.
      pose proof (Zdigits2_nonneg V1). cbn [Zdigits2] in *. lia. }
    destruct (Zdigits2_bounds V2 HV2) as (_ & Hl2 & _).
    set (j := Zdigits2 V2 - 1) in *.
    assert (HV1 : V1 <= 2 ^ j).
    { destruct (Z.eq_dec V1 0) as [E | E].
      - subst V1. apply Z.lt_le_incl, pow2_pos; lia.
      - destruct (Zdigits2_bounds V1) as (? & _ & Hh1); [lia |].
        assert (2 ^ Zdigits2 V1 <= 2 ^ j) by (apply pow2_le; lia). lia. }
    apply Z.le_trans with (2 ^ (j - k)).
    + apply Z.le_trans with (RNE (2 ^ j) T1 * 2 ^ (T1 - k)).
      * apply Z.mul_le_mono_nonneg_r;
          [apply Z.lt_le_incl, pow2_pos; lia | apply RNE_mono; lia].
      * rewrite RNE_pow2 by lia. rewrite <- pow2_split by lia.
        apply pow2_le. lia.
    + apply Z.le_trans with (RNE (2 ^ j) T2 * 2 ^ (T2 - k)).
      * rewrite RNE_pow2 by lia. rewrite <- pow2_split by lia.
        apply pow2_le. lia.
      * apply Z.mul_le_mono_nonneg_r;
          [apply Z.lt_le_incl, pow2_pos; lia | apply RNE_mono; lia].
Qed.

Lemma ulps_mk (M t : Z) :
  0 <= M -> -1074 <= t <= 970 -> ulps (mk false M t) = M * 2 ^ (t + 1074).
Proof.
  intros HM Ht. unfold mk.
  destruct (Z.eqb_spec M (2 ^ 53)) as [-> | Hne].
  - change (2 ^ 52) with (Zpos (2 ^ 52)). cbn [fin]. change (emax - prec) with 971.
    destruct (Z.leb_spec (t + 1) 971); [| lia]. cbn [ulps].
    replace (t + 1 + 1074) with (1 + (t + 1074)) by lia.
    rewrite pow2_split by lia. change (2 ^ 53) with (Zpos (2 ^ 52) * 2 ^ 1). ring.
  - destruct M as [| p | p]; [reflexivity | | lia]. cbn [fin].
    change (emax - prec) with 971.
    destruct (Z.leb_spec t 971); [reflexivity | lia].
Qed.

Lemma mk_nonneg_class (M t : Z) :
  0 <= M -> t <= 970 ->
  match mk false M t with
  | S754_zero _ | S754_finite false _ _ => True
  | _ => False
  end.
Proof.
  intros HM Ht. unfold mk.
  destruct (Z.eqb_spec M (2 ^ 53)) as [-> | Hne].
  - change (2 ^ 52) with (Zpos (2 ^ 52)). cbn [fin]. change (emax - prec) with 971.
    destruct (Z.leb_spec (t + 1) 971); [exact I | lia].
  - destruct M as [| p | p]; [exact I | | lia]. cbn [fin].
    change (emax - prec) with 971.
    destruct (Z.leb_spec t 971); [exact I | lia].
Qed.

(** Rounding an exact value [m * 2^e] of the unit interval: [k] extra low
    bits make room for the exponents below [-1074] that a product has. *)
Lemma binary_round_aux_ulps (m e k : Z) :
  0 < m -> 0 <= k -> 0 <= e + 1074 + k ->
  0 <= fexp prec emax (Zdigits2 m + e) - e ->
  m * 2 ^ (e + 1074 + k) <= 2 ^ (1074 + k) ->
  let z := binary_round_aux prec emax false m e loc_Exact in
  ulps z = R k (m * 2 ^ (e + 1074 + k)) /\
  match z with
  | S754_zero _ | S754_finite false _ _ => True
  | _ => False
  end.
Proof.
  intros Hm Hk Hek Hn Hle z.
  destruct (binary_round_aux_shape false m e loc_Exact) as (M & HM & HMb & HR & _);
    [lia | exact Hn |].
  specialize (HR eq_refl).
  set (n := fexp prec emax (Zdigits2 m + e) - e) in *.
  destruct (Zdigits2_bounds m Hm) as (Hd & Hl & Hh).
  (* the value is at most 1, so the target exponent is at most -52 *)
  assert (Hde : Zdigits2 m + e <= 1).
  { destruct (Z_le_gt_dec (Zdigits2 m + e) 1) as [H | H]; [exact H | exfalso].
    assert (2 ^ (Zdigits2 m - 1) * 2 ^ (e + 1074 + k) <= 2 ^ (1074 + k)).
    { eapply Z.le_trans; [| exact Hle]. apply Z.mul_le_mono_nonneg_r; [| exact Hl].
      apply Z.lt_le_incl, pow2_pos; lia. }
    rewrite <- pow2_split in H0 by lia.
    assert (2 ^ (1074 + k) < 2 ^ (Zdigits2 m - 1 + (e + 1074 + k))) by (apply pow2_lt; lia).
    lia. }
  assert (Ht : -1074 <= e + n <= -52) by (unfold n; rewrite fexp_eq; lia).
  assert (HM0 : 0 <= M).
  { assert (0 <= m / 2 ^ n) by (apply Z.div_pos; [lia | apply pow2_pos; lia]). lia. }
  unfold z. rewrite HM. split; [| apply mk_nonneg_class; lia].
  rewrite ulps_mk by lia.
  unfold R. rewrite Zdigits2_mul_pow2 by lia.
  replace (Z.max (Zdigits2 m + (e + 1074 + k) - 53) k) with (n + (e + 1074 + k))
    by (unfold n; rewrite fexp_eq; lia).
  rewrite RNE_scale by lia. rewrite <- HR. f_equal. f_equal. lia.
Qed.

(** ** Products and complements in the unit interval *)

Lemma shl_align_spec (m : positive) (e e' : Z) :
  snd (shl_align m e e') = Z.min e e' /\
  Zpos (fst (shl_align m e e')) = Zpos m * 2 ^ (e - Z.min e e').
Proof.
  unfold shl_align. destruct (e' - e) as [| d | d] eqn:E; cbn [fst snd].
  - replace (Z.min e e') with e by lia. rewrite Z.sub_diag. lia.
  - replace (Z.min e e') with e by lia. rewrite Z.sub_diag. lia.
  - replace (Z.min e e') with e' by lia. split; [reflexivity |].
    change (Pos.iter xO m d) with (shift_pos d m).
    rewrite shift_pos_correct, Z.pow_pos_fold.
    replace (e - e') with (Zpos d) by lia. ring.
Qed.

Lemma SFunit_intro (z : spec_float) :
  valid_binary z = true -> nonneg_class z -> ulps z <= 2 ^ 1074 -> SFunit z.
Proof.
  intros Hv Hc Hu. split; [exact Hv |].
  destruct z as [s | s | | [] m e]; try contradiction; [exact I | exact Hu].
Qed.

Lemma Zdigits2_mul_lower (a b : Z) :
  0 < a -> 0 < b -> Zdigits2 a + Zdigits2 b - 1 <= Zdigits2 (a * b).
Proof.
  intros Ha Hb.
  destruct (Zdigits2_bounds a Ha) as (Hda & Hla & _).
  destruct (Zdigits2_bounds b Hb) as (Hdb & Hlb & _).
  replace (Zdigits2 a + Zdigits2 b - 1)
    with (Zdigits2 (2 ^ (Zdigits2 a - 1 + (Zdigits2 b - 1))))
    by (rewrite Zdigits2_pow2; lia).
  apply Zdigits2_le. rewrite pow2_split by lia.
  split; [apply Z.lt_le_incl, Z.mul_pos_pos; apply pow2_pos; lia |].
  apply Z.mul_le_mono_nonneg; try lia; apply Z.lt_le_incl, pow2_pos; lia.
Qed.

Lemma SFmul_unit (x y : spec_float) :
  SFunit x -> SFunit y ->
  ulps (SF64mul x y) = R 1074 (ulps x * ulps y) /\ nonneg_class (SF64mul x y).
Proof.
  intros Hx Hy. pose proof Hx as [Hvx Hbx]. pose proof Hy as [Hvy Hby].
  destruct x as [sx | | | [] mx ex]; try contradiction;
    destruct y as [sy | | | [] my ey]; try contradiction;
    unfold SF64mul; cbn [SFmul ulps nonneg_class xorb];
    rewrite ?Z.mul_0_l, ?Z.mul_0_r, ?R_0 by lia; auto.
  pose proof (SFunit_exponent mx ex Hx) as Hex.
  pose proof (SFunit_exponent my ey Hy) as Hey.
  destruct (valid_finite_digits _ _ _ Hvx) as (_ & Hdx & Hnx & _).
  destruct (valid_finite_digits _ _ _ Hvy) as (_ & Hdy & Hny & _).
  pose proof (Zdigits2_mul_lower (Zpos mx) (Zpos my)) as Hd.
  destruct (Zdigits2_bounds (Zpos mx)) as (Hpx & _); [lia |].
  destruct (Zdigits2_bounds (Zpos my)) as (Hpy & _); [lia |].
  assert (HV : Zpos mx * Zpos my * 2 ^ (ex + ey + 1074 + 1074) =
               Zpos mx * 2 ^ (ex + 1074) * (Zpos my * 2 ^ (ey + 1074))).
  { replace (ex + ey + 1074 + 1074) with ((ex + 1074) + (ey + 1074)) by lia.
    rewrite pow2_split by lia. ring. }
  rewrite <- HV. rewrite Pos2Z.inj_mul.
  apply (binary_round_aux_ulps (Zpos mx * Zpos my) (ex + ey) 1074); try lia.
  - rewrite fexp_eq. lia.
  - rewrite HV. change (2 ^ (1074 + 1074)) with (2 ^ 1074 * 2 ^ 1074).
    apply Z.mul_le_mono_nonneg; lia.
Qed.

Lemma binary_round_ulps (d : positive) (e : Z) :
  -1074 <= e -> Zpos d * 2 ^ (e + 1074) <= 2 ^ 1074 ->
  ulps (binary_round prec emax false d e) = R 0 (Zpos d * 2 ^ (e + 1074)) /\
  nonneg_class (binary_round prec emax false d e).
Proof.
  intros He Hle. unfold binary_round.
  set (t := fexp prec emax (Zpos (digits2_pos d) + e)).
  destruct (shl_align_spec d e t) as [H2 H1].
  destruct (shl_align d e t) as [mz ez]. cbn [fst snd] in H1, H2.
  assert (Ht : t = Z.max (Zdigits2 (Zpos d) + e - 53) (-1074)) by apply fexp_eq.
  assert (Hmz : Zpos mz * 2 ^ (ez + 1074) = Zpos d * 2 ^ (e + 1074)).
  { rewrite H1, H2, <- Z.mul_assoc, <- pow2_split by lia. f_equal. f_equal. lia. }
  assert (Hdz : Zdigits2 (Zpos mz) + ez = Zdigits2 (Zpos d) + e).
  { rewrite H1, Zdigits2_mul_pow2 by lia. lia. }
  rewrite <- Hmz. replace (ez + 1074) with (ez + 1074 + 0) by lia.
  apply (binary_round_aux_ulps (Zpos mz) ez 0); try lia.
  - rewrite Hdz. fold (Zdigits2 (Zpos d)) in t. lia.
  - rewrite !Z.add_0_r. rewrite Hmz. exact Hle.
Qed.

Lemma SFsub_unit (p : spec_float) :
  SFunit p ->
  ulps (SF64sub (Prim2SF 1) p) = R 0 (2 ^ 1074 - ulps p) /\
  nonneg_class (SF64sub (Prim2SF 1) p).
Proof.
  intros Hp. pose proof Hp as [Hv Hb].
  change (Prim2SF 1) with (S754_finite false (2 ^ 52) (-52)).
  destruct p as [s | | | [] m e]; try contradiction; unfold SF64sub; cbn [SFsub].
  - cbn [ulps nonneg_class]. rewrite Z.sub_0_r, (R_pow2 0 1074) by lia.
    split; [reflexivity | exact I].
  - pose proof (SFunit_exponent m e Hp) as He.
    cbv zeta. cbn [cond_Zopp ulps].
    change (IntDef.Z.min (-52) e) with (Z.min (-52) e).
    replace (Z.min (-52) e) with e by lia.
    destruct (shl_align_spec (2 ^ 52) (-52) e) as [_ HA].
    destruct (shl_align_spec m e e) as [_ HB].
    replace (Z.min (-52) e) with e in HA by lia.
    replace (Z.min e e) with e in HB by lia.
    rewrite Z.sub_diag, Z.mul_1_r in HB.
    rewrite HA, HB. change (Zpos (2 ^ 52)) with (2 ^ 52).
    rewrite <- pow2_split by lia. replace (52 + (-52 - e)) with (- e) by lia.
    assert (HP : 2 ^ (- e) * 2 ^ (e + 1074) = 2 ^ 1074).
    { rewrite <- pow2_split by lia. f_equal. lia. }
    pose proof (pow2_pos (e + 1074)) as Hpos.
    assert (Hm : Zpos m <= 2 ^ (- e)) by nia.
    replace (2 ^ 1074 - Zpos m * 2 ^ (e + 1074))
      with ((2 ^ (- e) - Zpos m) * 2 ^ (e + 1074)) by (rewrite <- HP; ring).
    destruct (2 ^ (- e) - Zpos m) as [| d | d] eqn:ED; [| | lia].
    + cbn [binary_normalize ulps nonneg_class]. rewrite Z.mul_0_l, R_0 by lia.
      split; [reflexivity | exact I].
    + cbn [binary_normalize]. apply binary_round_ulps; [lia |].
      rewrite <- HP. apply Z.mul_le_mono_nonneg_r; lia.
Qed.

(** ** True division of two integers *)

Lemma new_location_0 (nb : Z) : new_location nb 0 = loc_Exact.
Proof.
  unfold new_location, new_location_even, new_location_odd.
  destruct (Z.even nb); reflexivity.
Qed.

Lemma SFdiv_core_int (k n : positive) :
  Zdigits2 (Zpos k) <= Zdigits2 (Zpos n) ->
  let e' := fexp prec emax (Zdigits2 (Zpos k) - Zdigits2 (Zpos n)) in
  SFdiv_core_binary prec emax (Zpos k) 0 (Zpos n) 0 =
  ((Zpos k * 2 ^ (- e')) / Zpos n, e',
   new_location (Zpos n) ((Zpos k * 2 ^ (- e')) mod Zpos n)).
Proof.
  intros Hd e'. unfold SFdiv_core_binary.
  change (IntDef.Z.min ?a ?b) with (Z.min a b).
  replace (Zdigits2 (Zpos k) + 0 - (Zdigits2 (Zpos n) + 0))
    with (Zdigits2 (Zpos k) - Zdigits2 (Zpos n)) by lia.
  fold e'.
  assert (He : -1074 <= e' <= -53) by (unfold e'; rewrite fexp_eq; lia).
  replace (Z.min e' (0 - 0)) with e' by lia.
  replace (0 - 0 - e') with (- e') by lia.
  destruct (- e') as [| p | p] eqn:E; [lia | | lia].
  change (IntDef.Z.shiftl (Zpos k) (Zpos p)) with (Z.shiftl (Zpos k) (Zpos p)).
  rewrite Z.shiftl_mul_pow2 by lia.
  unfold Z.div, Z.modulo.
  destruct (Z.div_eucl (Zpos k * 2 ^ Zpos p) (Zpos n)) as [q r]. reflexivity.
Qed.

Lemma SFdiv_int_unit (k n : positive) :
  (k <= n)%positive ->
  SFunit (SFdiv prec emax (S754_finite false k 0) (S754_finite false n 0)).
Proof.
  intros Hkn. cbn [SFdiv xorb].
  assert (Hd : Zdigits2 (Zpos k) <= Zdigits2 (Zpos n)) by (apply Zdigits2_le; lia).
  rewrite (SFdiv_core_int k n Hd).
  set (e' := fexp prec emax (Zdigits2 (Zpos k) - Zdigits2 (Zpos n))).
  assert (He : -1074 <= e' <= -53) by (unfold e'; rewrite fexp_eq; lia).
  set (a := Zpos k * 2 ^ (- e')).
  set (q := a / Zpos n). set (r := a mod Zpos n).
  pose proof (pow2_pos (- e')) as Hp.
  assert (Hqr : a = Zpos n * q + r /\ 0 <= r < Zpos n).
  { split; [apply Z.div_mod; lia | apply Z.mod_pos_bound; lia]. }
  assert (Hq0 : 0 <= q) by (apply Z.div_pos; unfold a; nia).
  assert (Hq1 : q <= 2 ^ (- e')).
  { assert (a <= Zpos n * 2 ^ (- e')) by (unfold a; nia). nia. }
  destruct (Zdigits2_bounds (Zpos k)) as (Hdk & Hlk & Hhk); [lia |].
  destruct (Zdigits2_bounds (Zpos n)) as (Hdn & Hln & Hhn); [lia |].
  (* a normal quotient has at least 53 bits *)
  assert (Hq52 : e' = -1074 \/ 2 ^ 52 <= q).
  { destruct (Z.eq_dec e' (-1074)) as [E | NE]; [now left | right].
    assert (Ee : - e' = Zdigits2 (Zpos n) - Zdigits2 (Zpos k) + 53)
      by (unfold e' in *; rewrite fexp_eq in *; lia).
    apply Z.div_le_lower_bound; [lia |].
    apply Z.le_trans with (2 ^ Zdigits2 (Zpos n) * 2 ^ 52); [nia |].
    unfold a. rewrite Ee.
    replace (Zdigits2 (Zpos n) - Zdigits2 (Zpos k) + 53)
      with ((Zdigits2 (Zpos n) - Zdigits2 (Zpos k) + 1) + 52) by lia.
    rewrite (pow2_split _ 52) by lia. rewrite Z.mul_assoc.
    apply Z.mul_le_mono_nonneg_r; [lia |].
    apply Z.le_trans with (2 ^ (Zdigits2 (Zpos k) - 1) *
                           2 ^ (Zdigits2 (Zpos n) - Zdigits2 (Zpos k) + 1)).
    - rewrite <- pow2_split by lia. apply pow2_le. lia.
    - apply Z.mul_le_mono_nonneg_r; [apply Z.lt_le_incl, pow2_pos; lia | lia]. }
  assert (Hdq : Zdigits2 q + e' <= 1).
  { assert (Zdigits2 q <= Zdigits2 (2 ^ (- e'))) by (apply Zdigits2_le; lia).
    rewrite Zdigits2_pow2 in H by lia. lia. }
  assert (Hn : 0 <= fexp prec emax (Zdigits2 q + e') - e').
  { rewrite fexp_eq. destruct Hq52 as [E | Hq52]; [lia |].
    assert (Zdigits2 (2 ^ 52) <= Zdigits2 q) by (apply Zdigits2_le; lia).
    rewrite Zdigits2_pow2 in H by lia. lia. }
  destruct (binary_round_aux_shape false q e' (new_location (Zpos n) r) Hq0 Hn)
    as (M & HM & HMb & HR & HM53 & HMn).
  set (n1 := fexp prec emax (Zdigits2 q + e') - e') in *.
  assert (Ht : -1074 <= e' + n1 <= -52) by (unfold n1; rewrite fexp_eq; lia).
  assert (HM0 : 0 <= M).
  { assert (0 <= q / 2 ^ n1) by (apply Z.div_pos; [lia | apply pow2_pos; lia]). lia. }
  rewrite HM. apply SFunit_intro.
  - apply mk_valid; lia.
  - apply mk_nonneg_class; lia.
  - rewrite ulps_mk by lia.
    assert (HP : 2 ^ (- (e' + n1)) * 2 ^ (e' + n1 + 1074) = 2 ^ 1074).
    { rewrite <- pow2_split by lia. f_equal. lia. }
    rewrite <- HP. apply Z.mul_le_mono_nonneg_r; [apply Z.lt_le_incl, pow2_pos; lia |].
    assert (HS : 2 ^ (- e') = 2 ^ (- (e' + n1)) * 2 ^ n1).
    { rewrite <- pow2_split by lia. f_equal. lia. }
    destruct (Z.eq_dec q (2 ^ (- e'))) as [E | NE].
    + (* the quotient is exactly one *)
      assert (Hr0 : r = 0) by (unfold a in Hqr; nia).
      rewrite Hr0, new_location_0 in HR. rewrite (HR eq_refl), E.
      rewrite RNE_pow2 by lia. apply pow2_le. lia.
    + assert (q / 2 ^ n1 < 2 ^ (- (e' + n1))); [| lia].
      apply Z.div_lt_upper_bound; [apply pow2_pos; lia |].
      rewrite Z.mul_comm, <- HS. lia.
Qed.

Lemma SFdiv_int_same (n : positive) :
  SFdiv prec emax (S754_finite false n 0) (S754_finite false n 0) =
  S754_finite false (2 ^ 52) (-52).
Proof.
  cbn [SFdiv xorb]. rewrite (SFdiv_core_int n n (Z.le_refl _)).
  rewrite Z.sub_diag. change (fexp prec emax 0) with (-53). change (- -53) with 53.
  rewrite (Z.mul_comm (Zpos n)), Z.div_mul, Z.mod_mul, new_location_0 by lia.
  reflexivity.
Qed.

(** ** The same facts on primitive floats *)

Lemma in_unit_N_bounds (x : float) : in_unit x = true -> 0 <= N x <= 2 ^ 1074.
Proof. intros Hx. apply ulps_unit_bounds, in_unit_SFunit, Hx. Qed.

Lemma unit_mul (x y : float) :
  in_unit x = true -> in_unit y = true ->
  in_unit (x * y) = true /\ N (x * y) = R 1074 (N x * N y).
Proof.
  intros Hx Hy.
  pose proof (in_unit_N_bounds x Hx) as Bx. pose proof (in_unit_N_bounds y Hy) as By.
  apply in_unit_SFunit in Hx, Hy.
  destruct (SFmul_unit _ _ Hx Hy) as [Hu Hc].
  unfold SF64mul in Hu, Hc. fold SF64mul in Hu, Hc. rewrite <- mul_spec in Hu, Hc.
  split; [| exact Hu].
  apply in_unit_SFunit, SFunit_intro; [apply Prim2SF_valid | exact Hc |].
  rewrite Hu. fold (N x) (N y).
  apply Z.le_trans with (R 1074 (2 ^ 2148)).
  - apply R_mono; [lia |]. split; [lia |].
    change (2 ^ 2148) with (2 ^ 1074 * 2 ^ 1074). apply Z.mul_le_mono_nonneg; lia.
  - rewrite R_pow2 by lia. apply Z.le_refl.
Qed.

Lemma unit_sub (p : float) :
  in_unit p = true ->
  in_unit (1 - p) = true /\ N (1 - p) = R 0 (2 ^ 1074 - N p).
Proof.
  intros Hp. pose proof (in_unit_N_bounds p Hp) as Bp.
  apply in_unit_SFunit in Hp.
  destruct (SFsub_unit _ Hp) as [Hu Hc].
  rewrite <- sub_spec in Hu, Hc.
  split; [| exact Hu].
  apply in_unit_SFunit, SFunit_intro; [apply Prim2SF_valid | exact Hc |].
  rewrite Hu. fold (N p).
  apply Z.le_trans with (R 0 (2 ^ 1074)).
  - apply R_mono; lia.
  - rewrite R_pow2 by lia. apply Z.le_refl.
Qed.

Lemma unit_compare (x y : float) :
  in_unit x = true -> in_unit y = true ->
  SFcompare (Prim2SF x) (Prim2SF y) = Some (N x ?= N y).
Proof.
  intros Hx Hy. apply SFcompare_ulps; apply in_unit_SFunit; assumption.
Qed.

Lemma unit_leb (x y : float) :
  in_unit x = true -> in_unit y = true -> (x <=? y)%float = (N x <=? N y).
Proof.
  intros Hx Hy. rewrite leb_spec. unfold SFleb, Z.leb.
  rewrite (unit_compare x y Hx Hy). now destruct (N x ?= N y).
Qed.

Lemma unit_ltb (x y : float) :
  in_unit x = true -> in_unit y = true -> (x <? y)%float = (N x <? N y).
Proof.
  intros Hx Hy. rewrite ltb_spec. unfold SFltb, Z.ltb.
  rewrite (unit_compare x y Hx Hy). now destruct (N x ?= N y).
Qed.

Lemma in_unit_one : in_unit 1 = true.
Proof. reflexivity. Qed.

(** Both factors weigh on a product monotonically. *)
Lemma unit_mul_mono (x x' y y' : float) :
  in_unit x = true -> in_unit x' = true ->
  in_unit y = true -> in_unit y' = true ->
  N x <= N x' -> N y <= N y' -> N (x * y) <= N (x' * y').
Proof.
  intros Hx Hx' Hy Hy' Hxx Hyy.
  destruct (unit_mul x y Hx Hy) as [_ ->].
  destruct (unit_mul x' y' Hx' Hy') as [_ ->].
  pose proof (in_unit_N_bounds x Hx). pose proof (in_unit_N_bounds y Hy).
  apply R_mono; [lia |]. split; [lia |].
  apply Z.mul_le_mono_nonneg; lia.
Qed.

(** The complement reverses the order. *)
Lemma unit_sub_anti (p p' : float) :
  in_unit p = true -> in_unit p' = true ->
  N p <= N p' -> N (1 - p') <= N (1 - p).
Proof.
  intros Hp Hp' Hpp.
  destruct (unit_sub p Hp) as [_ ->]. destruct (unit_sub p' Hp') as [_ ->].
  pose proof (in_unit_N_bounds p' Hp').
  apply R_mono; lia.
Qed.

(** The quotient of two integers [0 <= k <= n], [0 < n]. *)
Lemma int_truediv_unit (k n : Z) :
  0 <= k <= n -> 0 < n ->
  exists r : float, int_truediv k n = Ok r /\ in_unit r = true.
Proof.
  intros Hk Hn. unfold int_truediv.
  destruct (Z.eqb_spec n 0) as [E | _]; [lia |].
  destruct n as [| n | n]; try lia.
  destruct k as [| k | k]; try lia.
  - exists 0%float. split; reflexivity.
  - cbn [int_to_SF].
    pose proof (SFdiv_int_unit k n) as Hu.
    assert (Hkn : (k <= n)%positive) by lia. specialize (Hu Hkn).
    set (q := SFdiv prec emax (S754_finite false k 0) (S754_finite false n 0)) in *.
    exists (SF2Prim q). split.
    + destruct Hu as [_ Hc]. destruct q as [s | s | | s m e]; try reflexivity.
      contradiction.
    + apply in_unit_SFunit. destruct Hu as [Hv Hc].
      rewrite Prim2SF_SF2Prim by exact Hv. split; assumption.
Qed.

Lemma int_truediv_same (n : Z) : 0 < n -> int_truediv n n = Ok 1%float.
Proof.
  intros Hn. unfold int_truediv.
  destruct (Z.eqb_spec n 0) as [E | _]; [lia |].
  destruct n as [| n | n]; try lia.
  cbn [int_to_SF]. rewrite SFdiv_int_same. reflexivity.
Qed.

Lemma int_truediv_zero_neg (n : Z) : n < 0 -> int_truediv 0 n = Ok (-0)%float.
Proof.
  intros Hn. unfold int_truediv.
  destruct (Z.eqb_spec n 0) as [E | _]; [lia |].
  destruct n as [| n | n]; try lia. reflexivity.
Qed.

(** ** The loops *)

Local Close Scope Z_scope.

Lemma advance_advance (a b : nat) (g : Generator) :
  advance a (advance b g) = advance (a + b) g.
Proof. unfold advance; cbn. f_equal. lia. Qed.

Lemma advance_0 (g : Generator) : advance 0 g = g.
Proof. destruct g; reflexivity. Qed.

Lemma find_map {A B : Type} (f : B -> bool) (h : A -> B) (l : list A) :
  find f (map h l) = option_map h (find (fun a => f (h a)) l).
Proof.
  induction l as [| a l IH]; [reflexivity |]. cbn.
  destruct (f (h a)); [reflexivity | exact IH].
Qed.

Lemma find_ext {A : Type} (f f' : A -> bool) (l : list A) :
  (forall a, f a = f' a) -> find f l = find f' l.
Proof.
  intros E. induction l as [| a l IH]; [reflexivity |]. cbn.
  rewrite E, IH. reflexivity.
Qed.

Lemma failure_drawn_succ (p : float) (rest : list float) (g : Generator) (j : nat) :
  failure_drawn (p :: rest) g (S j) = failure_drawn rest (advance 1 g) j.
Proof.
  unfold failure_drawn, draw_for. cbn [nth advance tape cursor].
  now rewrite Nat.add_succ_r.
Qed.

Lemma first_failure_cons (p : float) (rest : list float) (g : Generator) :
  first_failure (p :: rest) g =
  if (tape g (cursor g) <? p)%float then Some 0
  else option_map S (first_failure rest (advance 1 g)).
Proof.
  unfold first_failure. cbn [length seq find].
  unfold failure_drawn at 1, draw_for. cbn [nth]. rewrite Nat.add_0_r.
  destruct (tape g (cursor g) <? p)%float; [reflexivity |].
  rewrite <- seq_shift, find_map. f_equal.
  apply find_ext. intros j. apply failure_drawn_succ.
Qed.

(** The loop over the subsystems makes the draws of [draws_made] and
    leaves [mission_success] alone unless a failure is drawn. *)
Lemma subsystem_loop_run (failure_probs : list float) (mission_success : bool)
    (g : Generator) :
  for_each failure_probs
    (fun fail_prob mission_success =>
       random_draw <- np_random_random ;;
       if (random_draw <? fail_prob)%float
       then ret (Break false)
       else ret (Next mission_success))
    mission_success g =
  (match first_failure failure_probs g with
   | None => mission_success
   | Some _ => false
   end, after_trial failure_probs g).
Proof.
  revert g. induction failure_probs as [| p rest IH]; intros g.
  - unfold after_trial, draws_made. cbn. now rewrite advance_0.
  - cbn [for_each]. unfold bind at 1. unfold bind at 1. unfold np_random_random at 1.
    unfold after_trial, draws_made. rewrite first_failure_cons.
    destruct (tape g (cursor g) <? p)%float eqn:E.
    + reflexivity.
    + cbn [ret]. rewrite IH. unfold after_trial, draws_made.
      destruct (first_failure rest (advance 1 g)) as [j |]; cbn [option_map length];
        rewrite advance_advance; repeat f_equal; lia.
Qed.

Lemma check_subsystems_run (failure_probs : list float) (g : Generator) :
  check_subsystems failure_probs g =
  (trial_succeeds failure_probs g, after_trial failure_probs g).
Proof. apply subsystem_loop_run. Qed.

Lemma trial_state_succ (failure_probs : list float) (g : Generator) (k : nat) :
  trial_state failure_probs g (S k) =
  trial_state failure_probs (after_trial failure_probs g) k.
Proof. unfold trial_state. apply Nat.iter_succ_r. Qed.

Lemma filter_map_length {A B : Type} (f : B -> bool) (h : A -> B) (l : list A) :
  length (filter f (map h l)) = length (filter (fun a => f (h a)) l).
Proof.
  induction l as [| a l IH]; [reflexivity |]. cbn.
  destruct (f (h a)); cbn; now rewrite IH.
Qed.

Lemma successful_trials_succ (failure_probs : list float) (g : Generator) (n : nat) :
  successful_trials failure_probs g (S n) =
  ((if trial_succeeds failure_probs g then 1 else 0) +
   successful_trials failure_probs (after_trial failure_probs g) n)%Z.
Proof.
  unfold successful_trials. cbn [seq filter].
  change (trial_state failure_probs g 0) with g.
  rewrite <- seq_shift.
  assert (E : length (filter (fun k => trial_succeeds failure_probs
                                         (trial_state failure_probs g k))
                        (map S (seq 0 n))) =
              length (filter (fun k => trial_succeeds failure_probs
                                         (trial_state failure_probs
                                            (after_trial failure_probs g) k))
                        (seq 0 n))).
  { rewrite filter_map_length. f_equal. apply filter_ext.
    intros k. now rewrite trial_state_succ. }
  destruct (trial_succeeds failure_probs g); cbn [length]; rewrite E; lia.
Qed.

Lemma successful_trials_bounds (failure_probs : list float) (g : Generator) (n : nat) :
  (0 <= successful_trials failure_probs g n <= Z.of_nat n)%Z.
Proof.
  unfold successful_trials. split; [lia |].
  apply inj_le. etransitivity; [apply filter_length_le |]. now rewrite length_seq.
Qed.

(** The loop over the trials counts the successful ones; each trial starts
    where the one before it stopped. *)
Lemma trial_loop_run (failure_probs : list float) {A : Type} (xs : list A)
    (successes : Z) (g : Generator) :
  for_each xs
    (fun _ successes =>
       mission_success <- check_subsystems failure_probs ;;
       ret (Next (if mission_success then (successes + 1)%Z else successes)))
    successes g =
  ((successes + successful_trials failure_probs g (length xs))%Z,
   trial_state failure_probs g (length xs)).
Proof.
  revert successes g. induction xs as [| x xs IH]; intros successes g.
  - cbn. unfold ret, successful_trials. cbn. f_equal. lia.
  - cbn [for_each length]. unfold bind at 1. unfold bind at 1.
    rewrite check_subsystems_run. cbn [ret]. rewrite IH.
    rewrite successful_trials_succ, trial_state_succ.
    destruct (trial_succeeds failure_probs g); f_equal; lia.
Qed.

Lemma range_length (n : Z) : length (range n) = Z.to_nat n.
Proof. unfold range. now rewrite length_map, length_seq. Qed.

Lemma monte_carlo_reliability_run (failure_probs : list float) (n_samples : Z)
    (g : Generator) :
  monte_carlo_reliability failure_probs n_samples g =
  (int_truediv (successful_trials failure_probs g (Z.to_nat n_samples)) n_samples,
   trial_state failure_probs g (Z.to_nat n_samples)).
Proof.
  unfold monte_carlo_reliability. unfold bind at 1.
  rewrite trial_loop_run, range_length. reflexivity.
Qed.

(** The loop of the analytical product neither reads nor moves the
    generator. *)
Lemma product_loop_run (failure_probs : list float) (reliability : float)
    (g : Generator) :
  for_each failure_probs
    (fun fail_prob reliability =>
       let prob_works := (1.0 - fail_prob)%float in
       ret (Next (reliability * prob_works)%float))
    reliability g =
  (fold_left (fun r p => (r * (1.0 - p))%float) failure_probs reliability, g).
Proof.
  revert reliability. induction failure_probs as [| p rest IH]; intros reliability.
  - reflexivity.
  - cbn [for_each fold_left]. unfold bind, ret. cbv zeta. apply IH.
Qed.

Lemma analytical_reliability_run (failure_probs : list float) (g : Generator) :
  analytical_reliability failure_probs g =
  (fold_left (fun r p => (r * (1.0 - p))%float) failure_probs 1.0%float, g).
Proof. apply product_loop_run. Qed.

Lemma fold_left_map_mul (failure_probs : list float) (r : float) :
  fold_left PrimFloat.mul (map (fun p => (1.0 - p)%float) failure_probs) r =
  fold_left (fun r p => (r * (1.0 - p))%float) failure_probs r.
Proof.
  revert r. induction failure_probs as [| p rest IH]; intros r; [reflexivity |].
  cbn. apply IH.
Qed.

Lemma forallb_cons_true {A : Type} (f : A -> bool) (a : A) (l : list A) :
  forallb f (a :: l) = true -> f a = true /\ forallb f l = true.
Proof. cbn. apply andb_true_iff. Qed.

(** The running product stays in the unit interval. *)
Lemma product_loop_unit (failure_probs : list float) (reliability : float) :
  forallb in_unit failure_probs = true -> in_unit reliability = true ->
  in_unit (fold_left (fun r p => (r * (1.0 - p))%float) failure_probs reliability)
  = true.
Proof.
  revert reliability. induction failure_probs as [| p rest IH]; intros r Hps Hr.
  - exact Hr.
  - apply forallb_cons_true in Hps. destruct Hps as [Hp Hrest].
    cbn [fold_left]. apply IH; [exact Hrest |].
    apply unit_mul; [exact Hr | apply unit_sub, Hp].
Qed.

(** The running product is monotone in the value it starts from. *)
Lemma product_loop_mono (failure_probs : list float) (r r' : float) :
  forallb in_unit failure_probs = true ->
  in_unit r = true -> in_unit r' = true -> (N r <= N r')%Z ->
  (N (fold_left (fun r p => (r * (1.0 - p))%float) failure_probs r) <=
   N (fold_left (fun r p => (r * (1.0 - p))%float) failure_probs r'))%Z.
Proof.
  revert r r'. induction failure_probs as [| p rest IH]; intros r r' Hps Hr Hr' Hle.
  - exact Hle.
  - apply forallb_cons_true in Hps. destruct Hps as [Hp Hrest].
    destruct (unit_sub p Hp) as [Hw _].
    cbn [fold_left]. apply IH; try assumption.
    + apply unit_mul; assumption.
    + apply unit_mul; assumption.
    + apply unit_mul_mono; try assumption. lia.
Qed.

(** Replacing one failure probability by a larger one. *)
Lemma product_loop_replace (failure_probs : list float) (i : nat) (p' r : float) :
  forallb in_unit failure_probs = true -> in_unit p' = true -> in_unit r = true ->
  (N (nth i failure_probs nan) <= N p')%Z -> i < length failure_probs ->
  (N (fold_left (fun r p => (r * (1.0 - p))%float) (replace_at i p' failure_probs) r)
   <= N (fold_left (fun r p => (r * (1.0 - p))%float) failure_probs r))%Z.
Proof.
  revert i r. induction failure_probs as [| p rest IH]; intros i r Hps Hp' Hr Hle Hi.
  - cbn in Hi. lia.
  - apply forallb_cons_true in Hps. destruct Hps as [Hp Hrest].
    destruct (unit_sub p Hp) as [Hw _]. destruct (unit_sub p' Hp') as [Hw' _].
    destruct i as [| i]; cbn [replace_at fold_left nth] in *.
    + apply product_loop_mono; try assumption; try (apply unit_mul; assumption).
      apply unit_mul_mono; try assumption; [lia |].
      apply unit_sub_anti; assumption.
    + apply IH; try assumption; try (apply unit_mul; assumption).
      cbn [length] in Hi. lia.
Qed.

Lemma replace_at_unit (i : nat) (p' : float) (failure_probs : list float) :
  forallb in_unit failure_probs = true -> in_unit p' = true ->
  forallb in_unit (replace_at i p' failure_probs) = true.
Proof.
  revert i. induction failure_probs as [| p rest IH]; intros i Hps Hp'; [reflexivity |].
  apply forallb_cons_true in Hps. destruct Hps as [Hp Hrest].
  destruct i as [| i]; cbn [replace_at forallb]; apply andb_true_iff; split; auto.
Qed.

Lemma forallb_nth_unit (failure_probs : list float) (i : nat) :
  forallb in_unit failure_probs = true -> i < length failure_probs ->
  in_unit (nth i failure_probs nan) = true.
Proof.
  intros Hps Hi. rewrite forallb_forall in Hps. apply Hps, nth_In, Hi.
Qed.

Lemma analytical_reliability_value (failure_probs : list float) (g : Generator) :
  analytical_reliability failure_probs g = (product_of_working failure_probs, g).
Proof.
  rewrite analytical_reliability_run. f_equal.
  unfold product_of_working, product.
  destruct failure_probs as [| p rest]; [reflexivity |].
  cbn [map fold_left]. rewrite mul_one_l. symmetry. apply fold_left_map_mul.
Qed.

Lemma trial_state_nil (g : Generator) (k : nat) : trial_state [] g k = g.
Proof.
  induction k as [| k IH]; [reflexivity |].
  rewrite trial_state_succ. unfold after_trial, draws_made. cbn.
  now rewrite advance_0.
Qed.

Lemma successful_trials_nil (g : Generator) (n : nat) :
  successful_trials [] g n = Z.of_nat n.
Proof.
  unfold successful_trials. f_equal.
  rewrite forallb_filter_id; [apply length_seq |].
  apply forallb_forall. reflexivity.
Qed.

(** The first failure is a failing draw, and no subsystem before it
    draws one. *)
Lemma first_failure_spec (failure_probs : list float) (g : Generator) :
  match first_failure failure_probs g with
  | Some j =>
      j < length failure_probs /\
      failure_drawn failure_probs g j = true /\
      forall i, i < j -> failure_drawn failure_probs g i = false
  | None =>
      forall i, i < length failure_probs -> failure_drawn failure_probs g i = false
  end.
Proof.
  unfold first_failure.
  generalize (failure_drawn failure_probs g) as f.
  generalize (length failure_probs) as n. intros n f.
  assert (H : forall s,
             match find f (seq s n) with
             | Some j => s <= j < s + n /\ f j = true /\
                         forall i, s <= i < j -> f i = false
             | None => forall i, s <= i < s + n -> f i = false
             end).
  { induction n as [| n IH]; intros s; cbn [seq find].
    - intros i Hi. lia.
    - destruct (f s) eqn:E.
      + split; [lia |]. split; [exact E |]. intros i Hi. lia.
      + specialize (IH (S s)). destruct (find f (seq (S s) n)) as [j |].
        * destruct IH as (Hj & Hf & Hbefore). split; [lia |]. split; [exact Hf |].
          intros i Hi. destruct (Nat.eq_dec i s) as [-> | Hne]; [exact E |].
          apply Hbefore. lia.
        * intros i Hi. destruct (Nat.eq_dec i s) as [-> | Hne]; [exact E |].
          apply IH. lia. }
  specialize (H 0). destruct (find f (seq 0 n)) as [j |].
  - destruct H as (Hj & Hf & Hbefore). split; [lia |]. split; [exact Hf |].
    intros i Hi. apply Hbefore. lia.
  - intros i Hi. apply H. lia.
Qed.

(** * Part III: the claims *)

Example analytical_reliability_example :
  analytical_reliability example_probs example_generator =
  (0.92243826674999985%float, example_generator).
Proof. vm_compute. reflexivity. Qed.

Example monte_carlo_reliability_example :
  monte_carlo_reliability [0.01; 0.02]%float 4 example_generator =
  (Ok 0.5%float, advance 6 example_generator).
Proof. vm_compute. reflexivity. Qed.

(** C1: for every failure-probability vector, [analytical_reliability]
    returns the product over all subsystems of [1 - failure_probability],
    [(1 - p1) * (1 - p2) * ... * (1 - pn)], and leaves the generator
    untouched. *)
Theorem analytical_reliability_product (failure_probs : list float)
    (g : Generator) :
  analytical_reliability failure_probs g =
  (product_of_working failure_probs, g).
Proof.
  rewrite analytical_reliability_run. f_equal.
  unfold product_of_working, product.
  destruct failure_probs as [| p rest]; [reflexivity |].
  (* the initial [1.0] is absorbed by the first factor *)
  cbn [map fold_left]. rewrite mul_one_l.
  symmetry. apply fold_left_map_mul.
Qed.

(** C2: for a positive [n_samples], [monte_carlo_reliability] runs
    [n_samples] trials, each starting where the one before stopped.  A
    trial takes the subsystems in the given order with one draw each,
    fails at the first draw strictly below the subsystem's failure
    probability and skips the subsystems after it; it succeeds iff no
    subsystem drew a failure.  The value is the float quotient of the
    number of successful trials by [n_samples]. *)
Theorem monte_carlo_reliability_trials (failure_probs : list float)
    (n_samples : Z) (g : Generator) :
  (0 < n_samples)%Z ->
  (forall g' : Generator,
      check_subsystems failure_probs g' =
      (trial_succeeds failure_probs g', after_trial failure_probs g') /\
      (trial_succeeds failure_probs g' = true <->
       forall j, j < length failure_probs ->
                 (draw_for g' j <? nth j failure_probs nan)%float = false) /\
      (forall j, first_failure failure_probs g' = Some j ->
                 j < length failure_probs /\
                 (draw_for g' j <? nth j failure_probs nan)%float = true /\
                 (forall i, i < j ->
                    (draw_for g' i <? nth i failure_probs nan)%float = false) /\
                 after_trial failure_probs g' = advance (j + 1) g') /\
      (first_failure failure_probs g' = None ->
       after_trial failure_probs g' = advance (length failure_probs) g')) /\
  exists ratio : float,
    int_truediv (successful_trials failure_probs g (Z.to_nat n_samples)) n_samples
    = Ok ratio /\
    monte_carlo_reliability failure_probs n_samples g =
    (Ok ratio, trial_state failure_probs g (Z.to_nat n_samples)).
Proof.
  intros Hn. split.
  - intros g'. pose proof (first_failure_spec failure_probs g') as Hff.
    split; [apply check_subsystems_run |]. split; [| split].
    + unfold trial_succeeds. destruct (first_failure failure_probs g') as [j |].
      * destruct Hff as (Hj & Hf & _). split; [discriminate |].
        intros H. specialize (H j Hj). unfold failure_drawn in Hf. congruence.
      * split; [intros _; exact Hff | reflexivity].
    + intros j Hj. unfold after_trial, draws_made. rewrite Hj in *.
      destruct Hff as (Hlt & Hf & Hbefore). repeat split; assumption.
    + intros Hnone. unfold after_trial, draws_made. now rewrite Hnone.
  - pose proof (successful_trials_bounds failure_probs g (Z.to_nat n_samples)) as Hb.
    destruct (int_truediv_unit
                (successful_trials failure_probs g (Z.to_nat n_samples)) n_samples)
      as (ratio & Hr & _); [lia | lia |].
    exists ratio. split; [exact Hr |].
    rewrite monte_carlo_reliability_run, Hr. reflexivity.
Qed.

Lemma monte_carlo_reliability_trials_witness :
  (0 < 4)%Z /\
  exists ratio : float,
    int_truediv (successful_trials [0.01; 0.02]%float example_generator 4) 4
    = Ok ratio /\
    monte_carlo_reliability [0.01; 0.02]%float 4 example_generator =
    (Ok ratio, trial_state [0.01; 0.02]%float example_generator 4).
Proof.
  split; [lia |].
  apply (monte_carlo_reliability_trials [0.01; 0.02]%float 4 example_generator).
  lia.
Defined.

(** C3, as stated, fails: a negative [n_samples] raises nothing. *)
Lemma monte_carlo_reliability_negative_counterexample :
  ~ (forall (failure_probs : list float) (n_samples : Z) (g : Generator),
        (n_samples <= 0)%Z ->
        exists e : exn,
          fst (monte_carlo_reliability failure_probs n_samples g) = Raise e).
Proof.
  intros H.
  destruct (H example_probs (-1)%Z example_generator) as [e He]; [lia |].
  vm_compute in He. discriminate He.
Qed.

(** C3, amended: with no validation of [n_samples], no trial is run and no
    draw is made when [n_samples <= 0]; [n_samples = 0] raises
    [ZeroDivisionError] from the final division, and a negative
    [n_samples] returns the quotient [0 / n_samples], the float [-0.0]. *)
Theorem monte_carlo_reliability_nonpositive (failure_probs : list float)
    (n_samples : Z) (g : Generator) :
  (n_samples <= 0)%Z ->
  monte_carlo_reliability failure_probs n_samples g =
  (if (n_samples =? 0)%Z then Raise ZeroDivisionError else Ok (-0)%float, g).
Proof.
  intros Hn. rewrite monte_carlo_reliability_run.
  replace (Z.to_nat n_samples) with 0 by lia.
  change (trial_state failure_probs g 0) with g.
  change (successful_trials failure_probs g 0) with 0%Z.
  destruct (Z.eqb_spec n_samples 0) as [-> | Hne]; [reflexivity |].
  rewrite int_truediv_zero_neg by lia. reflexivity.
Qed.

Lemma monte_carlo_reliability_nonpositive_witness :
  (-4 <= 0)%Z /\
  monte_carlo_reliability example_probs (-4) example_generator =
  (Ok (-0)%float, example_generator).
Proof.
  split; [lia |].
  apply (monte_carlo_reliability_nonpositive example_probs (-4) example_generator).
  lia.
Defined.

(** C4, as stated, fails: once another subsystem fails surely, the
    reliability is zero whatever the replaced probability. *)
Lemma analytical_reliability_strict_counterexample :
  ~ (forall (failure_probs : list float) (i : nat) (p' : float) (g : Generator),
        forallb in_unit failure_probs = true -> in_unit p' = true ->
        i < length failure_probs ->
        (nth i failure_probs nan <? p')%float = true ->
        (fst (analytical_reliability (replace_at i p' failure_probs) g) <?
         fst (analytical_reliability failure_probs g))%float = true).
Proof.
  intros H.
  specialize (H [0.5; 1.0]%float 0 0.7%float example_generator
                eq_refl eq_refl (Nat.lt_0_succ 1) eq_refl).
  vm_compute in H. discriminate H.
Qed.

(** Nor is the decrease strict when every other factor is positive: a
    small enough increase is lost in the rounding of [1.0 - p]. *)
Example analytical_reliability_rounding_plateau :
  in_unit 0.0%float = true /\ in_unit 1e-17%float = true /\
  (0.0 <? 1e-17)%float = true /\
  fst (analytical_reliability [1e-17]%float example_generator) =
  fst (analytical_reliability [0.0]%float example_generator).
Proof. repeat split. Qed.

(** C4, amended: for a vector with all elements in [[0, 1]], replacing the
    element at a position by a strictly larger value of [[0, 1]] does not
    increase the analytical reliability. *)
Theorem analytical_reliability_monotone (failure_probs : list float) (i : nat)
    (p' : float) (g : Generator) :
  forallb in_unit failure_probs = true -> in_unit p' = true ->
  i < length failure_probs ->
  (nth i failure_probs nan <? p')%float = true ->
  (fst (analytical_reliability (replace_at i p' failure_probs) g) <=?
   fst (analytical_reliability failure_probs g))%float = true.
Proof.
  intros Hps Hp' Hi Hlt.
  pose proof (forallb_nth_unit failure_probs i Hps Hi) as Hpi.
  rewrite (unit_ltb _ _ Hpi Hp') in Hlt. apply Z.ltb_lt in Hlt.
  rewrite !analytical_reliability_run. cbn [fst].
  rewrite unit_leb.
  - apply Z.leb_le. apply product_loop_replace; try assumption; [reflexivity | lia].
  - apply product_loop_unit; [apply replace_at_unit; assumption | reflexivity].
  - apply product_loop_unit; [assumption | reflexivity].
Qed.

Lemma analytical_reliability_monotone_witness :
  forallb in_unit example_probs = true /\ in_unit 0.5%float = true /\
  2 < length example_probs /\
  (nth 2 example_probs nan <? 0.5)%float = true /\
  (fst (analytical_reliability (replace_at 2 0.5%float example_probs)
          example_generator) <=?
   fst (analytical_reliability example_probs example_generator))%float = true.
Proof.
  assert (Hi : 2 < length example_probs) by (cbn; lia).
  split; [reflexivity |]. split; [reflexivity |]. split; [exact Hi |].
  split; [reflexivity |].
  apply (analytical_reliability_monotone example_probs 2 0.5%float example_generator);
    [reflexivity | reflexivity | exact Hi | reflexivity].
Defined.

(** C5: for every failure-probability vector whose elements all lie in
    [[0, 1]], the value returned by [analytical_reliability] lies in
    [[0, 1]]. *)
Theorem analytical_reliability_in_unit (failure_probs : list float)
    (g : Generator) :
  forallb in_unit failure_probs = true ->
  in_unit (fst (analytical_reliability failure_probs g)) = true.
Proof.
  intros Hps. rewrite analytical_reliability_run. cbn [fst].
  apply product_loop_unit; [exact Hps | reflexivity].
Qed.

Lemma analytical_reliability_in_unit_witness :
  forallb in_unit example_probs = true /\
  in_unit (fst (analytical_reliability example_probs example_generator)) = true.
Proof.
  split; [reflexivity |].
  apply (analytical_reliability_in_unit example_probs example_generator).
  reflexivity.
Defined.

(** C6: for every failure-probability vector, every positive [n_samples]
    and every state of the generator, whatever its draws,
    [monte_carlo_reliability] returns a float of [[0, 1]]. *)
Theorem monte_carlo_reliability_in_unit (failure_probs : list float)
    (n_samples : Z) (g : Generator) :
  (0 < n_samples)%Z ->
  exists ratio : float,
    fst (monte_carlo_reliability failure_probs n_samples g) = Ok ratio /\
    in_unit ratio = true.
Proof.
  intros Hn. rewrite monte_carlo_reliability_run. cbn [fst].
  pose proof (successful_trials_bounds failure_probs g (Z.to_nat n_samples)).
  apply int_truediv_unit; lia.
Qed.

Lemma monte_carlo_reliability_in_unit_witness :
  (0 < 7)%Z /\
  exists ratio : float,
    fst (monte_carlo_reliability example_probs 7 example_generator) = Ok ratio /\
    in_unit ratio = true.
Proof.
  split; [lia |].
  apply (monte_carlo_reliability_in_unit example_probs 7 example_generator). lia.
Defined.

(** C7: for the empty failure-probability vector, [analytical_reliability]
    returns exactly [1.0]. *)
Theorem analytical_reliability_empty (g : Generator) :
  analytical_reliability [] g = (1.0%float, g).
Proof. reflexivity. Qed.

(** C8: for the empty failure-probability vector and every positive
    [n_samples], [monte_carlo_reliability] returns exactly [1.0] whatever
    the generator, of which it makes no draw. *)
Theorem monte_carlo_reliability_empty (n_samples : Z) (g : Generator) :
  (0 < n_samples)%Z ->
  monte_carlo_reliability [] n_samples g = (Ok 1.0%float, g).
Proof.
  intros Hn. rewrite monte_carlo_reliability_run.
  rewrite trial_state_nil, successful_trials_nil, Z2Nat.id by lia.
  rewrite int_truediv_same by lia. reflexivity.
Qed.

Lemma monte_carlo_reliability_empty_witness :
  (0 < 100000)%Z /\
  monte_carlo_reliability [] 100000 example_generator =
  (Ok 1.0%float, example_generator).
Proof.
  split; [lia |].
  apply (monte_carlo_reliability_empty 100000 example_generator). lia.
Defined.

(** C9: on a vector with a failure probability outside [[0, 1]],
    [analytical_reliability] validates nothing and raises nothing: it
    returns the same product formula over the given values. *)
Theorem analytical_reliability_unvalidated (failure_probs : list float)
    (g : Generator) :
  existsb (fun p => negb (in_unit p)) failure_probs = true ->
  analytical_reliability failure_probs g =
  (product_of_working failure_probs, g).
Proof. intros _. apply analytical_reliability_value. Qed.

Lemma analytical_reliability_unvalidated_witness :
  existsb (fun p => negb (in_unit p)) [0.5; -1.0]%float = true /\
  analytical_reliability [0.5; -1.0]%float example_generator =
  (product_of_working [0.5; -1.0]%float, example_generator).
Proof.
  split; [reflexivity |].
  apply (analytical_reliability_unvalidated [0.5; -1.0]%float example_generator).
  reflexivity.
Defined.

(** The product of such a vector may lie outside the unit interval. *)
Example analytical_reliability_out_of_range :
  fst (analytical_reliability [-1.0]%float example_generator) = 2.0%float /\
  in_unit 2.0%float = false /\
  fst (analytical_reliability [3.0]%float example_generator) = (-2.0)%float /\
  in_unit (-2.0)%float = false.
Proof. repeat split. Qed.

(** C10: [analytical_reliability] is deterministic: its value does not
    depend on the state of the generator, which it leaves as it was, and
    two calls in a row on the same input return identical floats. *)
Theorem analytical_reliability_deterministic (failure_probs : list float)
    (g1 g2 : Generator) :
  fst (analytical_reliability failure_probs g1) =
  fst (analytical_reliability failure_probs g2) /\
  snd (analytical_reliability failure_probs g1) = g1 /\
  exists v : float,
    (first <- analytical_reliability failure_probs ;;
     second <- analytical_reliability failure_probs ;;
     ret (first, second)) g1 = ((v, v), g1).
Proof.
  split; [| split].
  - now rewrite !analytical_reliability_run.
  - now rewrite analytical_reliability_run.
  - exists (fold_left (fun r p => (r * (1.0 - p))%float) failure_probs 1.0%float).
    unfold bind. rewrite !analytical_reliability_run. reflexivity.
Qed.

(** By contrast, two calls in a row of the Monte Carlo estimator may
    differ: the second starts from the generator the first one left. *)
Example monte_carlo_reliability_depends_on_generator :
  (first <- monte_carlo_reliability [0.01; 0.02]%float 1 ;;
   second <- monte_carlo_reliability [0.01; 0.02]%float 1 ;;
   ret (first, second)) example_generator =
  ((Ok 0%float, Ok 1%float), advance 3 example_generator).
Proof. vm_compute. reflexivity. Qed.

(** * Part IV: further properties of the two functions *)

(** ** More binary64 facts *)

Lemma mul_one_r_SF (x : spec_float) :
  valid_binary x = true -> SF64mul x (Prim2SF 1) = x.
Proof.
  intros Hv. change (Prim2SF 1) with (S754_finite false (2 ^ 52) (-52)).
  destruct x as [[] | [] | | s m e]; try reflexivity.
  unfold SF64mul, SFmul. rewrite xorb_false_r.
  destruct (valid_finite_inv _ _ _ Hv) as [Hc He].
  destruct (valid_finite_digits _ _ _ Hv) as (Hr & Hd & _ & Hlt).
  rewrite Pos2Z.inj_mul. change (Zpos (2 ^ 52)) with (2 ^ 52)%Z.
  assert (Hn : (fexp prec emax (Zdigits2 (Zpos m * 2 ^ 52) + (e + -52)) - (e + -52)
                = 52)%Z).
  { rewrite Zdigits2_mul_pow2 by lia.
    replace (Zdigits2 (Zpos m) + 52 + (e + -52))%Z with (Zdigits2 (Zpos m) + e)%Z by lia.
    rewrite Hc. lia. }
  destruct (binary_round_aux_shape s (Zpos m * 2 ^ 52) (e + -52) loc_Exact)
    as (M & HM & _ & HR & _); [lia | lia |].
  rewrite Hn in HM, HR. rewrite HM, (HR eq_refl), RNE_exact by lia.
  unfold mk. destruct (Z.eqb_spec (Zpos m) (2 ^ 53)) as [E | _]; [lia |].
  replace (e + -52 + 52)%Z with e by lia.
  unfold fin. change (emax - prec)%Z with 971%Z.
  destruct (Z.leb_spec e 971); [reflexivity | lia].
Qed.

Lemma mul_one_r (x : float) : (x * 1)%float = x.
Proof.
  apply Prim2SF_inj. rewrite mul_spec. apply mul_one_r_SF, Prim2SF_valid.
Qed.

(** [p == 1.0] holds of the float [1.0] only. *)
Lemma eqb_one_eq (p : float) : (p =? 1)%float = true -> p = 1%float.
Proof.
  rewrite eqb_spec. intros H. apply Prim2SF_inj.
  change (Prim2SF 1) with (S754_finite false (2 ^ 52) (-52)) in *.
  unfold SFeqb in H.
  destruct (Prim2SF p) as [s | [] | | [] m e]; cbn [SFcompare] in H; try discriminate.
  destruct (Z.compare_spec e (-52)) as [E | E | E]; try discriminate.
  subst e. rewrite Pos.compare_cont_spec in H. cbn [Pos.switch_Eq] in H.
  destruct (Pos.compare_spec m (2 ^ 52)) as [E | E | E]; try discriminate.
  now subst m.
Qed.

(** [p == 0.0] holds of the two zeros only, and [1.0 - p] is then [1.0]. *)
Lemma eqb_zero_sub (p : float) : (p =? 0)%float = true -> (1 - p)%float = 1%float.
Proof.
  rewrite eqb_spec. intros H. apply Prim2SF_inj. rewrite sub_spec.
  change (Prim2SF 0) with (S754_zero false) in H. unfold SFeqb in H.
  destruct (Prim2SF p) as [s | [] | | [] m e]; cbn [SFcompare] in H; try discriminate.
  reflexivity.
Qed.

(** A draw that is not negative is not below a zero probability. *)
Lemma ltb_zero_false (d p : float) :
  (0 <=? d)%float = true -> (p =? 0)%float = true -> (d <? p)%float = false.
Proof.
  rewrite leb_spec, eqb_spec, ltb_spec.
  change (Prim2SF 0) with (S754_zero false). unfold SFleb, SFeqb, SFltb.
  destruct (Prim2SF p) as [s | [] | | [] m e]; cbn [SFcompare]; try discriminate;
    destruct (Prim2SF d) as [s' | [] | | [] m' e']; cbn [SFcompare];
    intros H1 H2; try discriminate; reflexivity.
Qed.

Lemma N_zero_eqb (x : float) :
  in_unit x = true -> N x = 0%Z -> (x =? 0)%float = true.
Proof.
  intros Hx HN. rewrite eqb_spec. unfold SFeqb.
  rewrite (unit_compare x 0 Hx eq_refl), HN. reflexivity.
Qed.

Lemma nan_sub (x : float) : (x - nan)%float = nan.
Proof.
  apply Prim2SF_inj. rewrite sub_spec. change (Prim2SF nan) with S754_nan.
  unfold SF64sub. destruct (Prim2SF x) as [s | s | | s m e]; reflexivity.
Qed.

Lemma nan_mul_l (x : float) : (nan * x)%float = nan.
Proof.
  apply Prim2SF_inj. rewrite mul_spec. change (Prim2SF nan) with S754_nan.
  reflexivity.
Qed.

Lemma nan_mul_r (x : float) : (x * nan)%float = nan.
Proof.
  apply Prim2SF_inj. rewrite mul_spec. change (Prim2SF nan) with S754_nan.
  unfold SF64mul. destruct (Prim2SF x) as [s | s | | s m e]; reflexivity.
Qed.

(** A factor of the unit interval does not increase a product. *)
Lemma unit_mul_le_l (r w : float) :
  in_unit r = true -> in_unit w = true -> (N (r * w) <= N r)%Z.
Proof.
  intros Hr Hw. rewrite <- (mul_one_r r) at 2.
  apply unit_mul_mono; try assumption; try exact in_unit_one; [lia |].
  apply (in_unit_N_bounds w Hw).
Qed.

Lemma unit_mul_le_r (r w : float) :
  in_unit r = true -> in_unit w = true -> (N (r * w) <= N w)%Z.
Proof.
  intros Hr Hw. rewrite <- (mul_one_l w) at 2.
  apply unit_mul_mono; try assumption; try exact in_unit_one; [| lia].
  apply (in_unit_N_bounds r Hr).
Qed.

(** ** The running product *)


Lemma product_loop_le_start (failure_probs : list float) (r : float) :
  forallb in_unit failure_probs = true -> in_unit r = true ->
  (N (fold_left (fun r p => (r * (1.0 - p))%float) failure_probs r) <= N r)%Z.
Proof.
  revert r. induction failure_probs as [| p rest IH]; intros r Hps Hr.
  - apply Z.le_refl.
  - apply forallb_cons_true in Hps. destruct Hps as [Hp Hrest].
    destruct (unit_sub p Hp) as [Hw _]. cbn [fold_left].
    apply Z.le_trans with (N (r * (1 - p))).
    + apply IH; [exact Hrest | apply unit_mul; assumption].
    + apply unit_mul_le_l; assumption.
Qed.

Lemma product_loop_zero (failure_probs : list float) (r : float) :
  forallb in_unit failure_probs = true -> in_unit r = true -> N r = 0%Z ->
  N (fold_left (fun r p => (r * (1.0 - p))%float) failure_probs r) = 0%Z.
Proof.
  intros Hps Hr H0.
  pose proof (product_loop_le_start failure_probs r Hps Hr) as Hle.
  pose proof (in_unit_N_bounds _ (product_loop_unit failure_probs r Hps Hr)) as Hb.
  lia.
Qed.

Lemma product_loop_nan (failure_probs : list float) :
  fold_left (fun r p => (r * (1.0 - p))%float) failure_probs nan = nan.
Proof.
  induction failure_probs as [| p rest IH]; [reflexivity |].
  cbn [fold_left]. rewrite nan_mul_l. exact IH.
Qed.

Lemma is_nan_eq (x : float) : is_nan x = true -> x = nan.
Proof.
  unfold is_nan. rewrite eqb_spec. intros H. apply Prim2SF_inj.
  change (Prim2SF nan) with S754_nan. unfold SFeqb in H.
  destruct (Prim2SF x) as [s | [] | | [] m e]; cbn [SFcompare] in H;
    try reflexivity; try discriminate;
    rewrite Z.compare_refl, Pos.compare_cont_spec, Pos.compare_refl in H;
    discriminate.
Qed.

Lemma product_loop_nan_in (failure_probs : list float) (r : float) :
  existsb is_nan failure_probs = true ->
  fold_left (fun r p => (r * (1.0 - p))%float) failure_probs r = nan.
Proof.
  revert r. induction failure_probs as [| p rest IH]; intros r H; [discriminate |].
  cbn [existsb fold_left] in *. destruct (is_nan p) eqn:E.
  - apply is_nan_eq in E. subst p. rewrite nan_sub, nan_mul_r. apply product_loop_nan.
  - apply IH. exact H.
Qed.

Lemma product_loop_all_zero (failure_probs : list float) :
  forallb (fun p => (p =? 0)%float) failure_probs = true ->
  fold_left (fun r p => (r * (1.0 - p))%float) failure_probs 1%float = 1%float.
Proof.
  induction failure_probs as [| p rest IH]; intros H; [reflexivity |].
  apply forallb_cons_true in H. destruct H as [Hp Hrest].
  cbn [fold_left]. rewrite (eqb_zero_sub p Hp), mul_one_l. apply IH, Hrest.
Qed.

Lemma product_loop_sure_failure (failure_probs : list float) (r : float) :
  forallb in_unit failure_probs = true -> in_unit r = true ->
  existsb (fun p => (p =? 1)%float) failure_probs = true ->
  N (fold_left (fun r p => (r * (1.0 - p))%float) failure_probs r) = 0%Z.
Proof.
  revert r. induction failure_probs as [| p rest IH]; intros r Hps Hr H; [discriminate |].
  apply forallb_cons_true in Hps. destruct Hps as [Hp Hrest].
  destruct (unit_sub p Hp) as [Hw _].
  cbn [existsb fold_left] in *. destruct (p =? 1)%float eqn:E.
  - apply eqb_one_eq in E. subst p.
    apply product_loop_zero; [exact Hrest | apply unit_mul; assumption |].
    destruct (unit_mul r (1 - 1) Hr Hw) as [_ ->].
    change (N (1 - 1)) with 0%Z. rewrite Z.mul_0_r. apply R_0. lia.
  - apply IH; [exact Hrest | apply unit_mul; assumption | exact H].
Qed.

Lemma product_loop_weakest (failure_probs : list float) (i : nat) (r : float) :
  forallb in_unit failure_probs = true -> in_unit r = true ->
  i < length failure_probs ->
  (N (fold_left (fun r p => (r * (1.0 - p))%float) failure_probs r) <=
   N (1 - nth i failure_probs nan))%Z.
Proof.
  revert i r. induction failure_probs as [| p rest IH]; intros i r Hps Hr Hi.
  - cbn in Hi. lia.
  - apply forallb_cons_true in Hps. destruct Hps as [Hp Hrest].
    destruct (unit_sub p Hp) as [Hw _]. cbn [fold_left nth length] in *.
    destruct i as [| i].
    + apply Z.le_trans with (N (r * (1 - p))).
      * apply product_loop_le_start; [exact Hrest | apply unit_mul; assumption].
      * apply unit_mul_le_r; assumption.
    + apply IH; [exact Hrest | apply unit_mul; assumption | lia].
Qed.

(** ** The generator along the trials *)

Lemma draws_made_le (failure_probs : list float) (g : Generator) :
  draws_made failure_probs g <= length failure_probs.
Proof.
  unfold draws_made. pose proof (first_failure_spec failure_probs g) as H.
  destruct (first_failure failure_probs g) as [j |]; [| apply Nat.le_refl].
  destruct H as [Hj _]. lia.
Qed.

Lemma draws_made_pos (failure_probs : list float) (g : Generator) :
  failure_probs <> [] -> 1 <= draws_made failure_probs g.
Proof.
  intros Hne. unfold draws_made.
  destruct (first_failure failure_probs g) as [j |]; [lia |].
  destruct failure_probs; [contradiction | cbn; lia].
Qed.

Lemma trial_state_advance (failure_probs : list float) (g : Generator) (n : nat) :
  exists d : nat,
    trial_state failure_probs g n = advance d g /\
    d <= n * length failure_probs /\
    (failure_probs <> [] -> n <= d).
Proof.
  revert g. induction n as [| n IH]; intros g.
  - exists 0. split; [symmetry; apply advance_0 |]. split; [lia | intros _; lia].
  - rewrite trial_state_succ.
    destruct (IH (after_trial failure_probs g)) as (d & Hd & Hle & Hge).
    exists (d + draws_made failure_probs g). split; [| split].
    + rewrite Hd. unfold after_trial. apply advance_advance.
    + pose proof (draws_made_le failure_probs g). cbn [Nat.mul]. lia.
    + intros Hne. pose proof (draws_made_pos failure_probs g Hne).
      specialize (Hge Hne). lia.
Qed.

Lemma trial_state_tape (failure_probs : list float) (g : Generator) (n : nat) :
  tape (trial_state failure_probs g n) = tape g.
Proof.
  destruct (trial_state_advance failure_probs g n) as (d & -> & _). reflexivity.
Qed.

Lemma trial_state_add (failure_probs : list float) (g : Generator) (n1 n2 : nat) :
  trial_state failure_probs g (n1 + n2) =
  trial_state failure_probs (trial_state failure_probs g n1) n2.
Proof.
  unfold trial_state. rewrite Nat.add_comm. apply Nat.iter_add.
Qed.

Lemma successful_trials_add (failure_probs : list float) (g : Generator)
    (n1 n2 : nat) :
  successful_trials failure_probs g (n1 + n2) =
  (successful_trials failure_probs g n1 +
   successful_trials failure_probs (trial_state failure_probs g n1) n2)%Z.
Proof.
  revert g. induction n1 as [| n1 IH]; intros g.
  - cbn [Nat.add]. change (trial_state failure_probs g 0) with g.
    change (successful_trials failure_probs g 0) with 0%Z. lia.
  - cbn [Nat.add]. rewrite !successful_trials_succ, IH, trial_state_succ. lia.
Qed.

(** The same outcome for every trial of a run. *)
Lemma successful_trials_const (failure_probs : list float) (b : bool)
    (g : Generator) (n : nat) :
  (forall g', tape g' = tape g -> trial_succeeds failure_probs g' = b) ->
  successful_trials failure_probs g n = if b then Z.of_nat n else 0%Z.
Proof.
  intros H. revert g H. induction n as [| n IH]; intros g H.
  - destruct b; reflexivity.
  - rewrite successful_trials_succ, (H g eq_refl), IH.
    + destruct b; lia.
    + intros g' Hg'. apply H. rewrite Hg'. reflexivity.
Qed.

Lemma sure_failure_trial (failure_probs : list float) (g : Generator) :
  existsb (fun p => (p =? 1)%float) failure_probs = true ->
  (forall i, (tape g i <? 1)%float = true) ->
  trial_succeeds failure_probs g = false.
Proof.
  intros Hex Hdraws. apply existsb_exists in Hex. destruct Hex as (p & Hin & Hp).
  apply eqb_one_eq in Hp. subst p.
  destruct (In_nth _ _ nan Hin) as (j & Hj & Hnth).
  unfold trial_succeeds. pose proof (first_failure_spec failure_probs g) as H.
  destruct (first_failure failure_probs g) as [k |]; [reflexivity |].
  specialize (H j Hj). unfold failure_drawn, draw_for in H.
  rewrite Hnth, Hdraws in H. discriminate.
Qed.

Lemma no_failure_trial (failure_probs : list float) (g : Generator) :
  forallb (fun p => (p =? 0)%float) failure_probs = true ->
  (forall i, (0 <=? tape g i)%float = true) ->
  first_failure failure_probs g = None.
Proof.
  intros Hps Hdraws. pose proof (first_failure_spec failure_probs g) as H.
  destruct (first_failure failure_probs g) as [j |]; [| reflexivity].
  destruct H as (Hj & Hf & _). unfold failure_drawn, draw_for in Hf.
  rewrite forallb_forall in Hps.
  rewrite ltb_zero_false in Hf; [discriminate | apply Hdraws |].
  apply Hps, nth_In, Hj.
Qed.

Lemma trial_state_all_draws (failure_probs : list float) (g : Generator) (n : nat) :
  (forall g', tape g' = tape g -> first_failure failure_probs g' = None) ->
  trial_state failure_probs g n = advance (n * length failure_probs) g.
Proof.
  intros H. revert g H. induction n as [| n IH]; intros g H.
  - symmetry. apply advance_0.
  - rewrite trial_state_succ, IH.
    + unfold after_trial, draws_made. rewrite (H g eq_refl), advance_advance.
      f_equal. cbn [Nat.mul]. lia.
    + intros g' Hg'. apply H. rewrite Hg'. reflexivity.
Qed.

Lemma int_truediv_zero_pos (n : Z) : (0 < n)%Z -> int_truediv 0 n = Ok 0%float.
Proof.
  intros Hn. unfold int_truediv.
  destruct (Z.eqb_spec n 0) as [E | _]; [lia |].
  destruct n as [| n | n]; try lia. reflexivity.
Qed.

(** ** The draws a run reads *)

Lemma find_ext_in {A : Type} (f f' : A -> bool) (l : list A) :
  (forall a, In a l -> f a = f' a) -> find f l = find f' l.
Proof.
  induction l as [| a l IH]; intros E; [reflexivity |]. cbn [find].
  rewrite (E a (or_introl eq_refl)), IH; [reflexivity |].
  intros b Hb. apply E. now right.
Qed.

Lemma first_failure_agree (failure_probs : list float) (g1 g2 : Generator) :
  agree_on (length failure_probs) g1 g2 ->
  first_failure failure_probs g1 = first_failure failure_probs g2.
Proof.
  intros [_ H]. unfold first_failure. apply find_ext_in.
  intros j Hj. apply in_seq in Hj. unfold failure_drawn. rewrite H by lia. reflexivity.
Qed.

Lemma after_trial_agree (failure_probs : list float) (g1 g2 : Generator) (k : nat) :
  agree_on (length failure_probs + k) g1 g2 ->
  agree_on k (after_trial failure_probs g1) (after_trial failure_probs g2).
Proof.
  intros Hagree.
  assert (Hff : first_failure failure_probs g1 = first_failure failure_probs g2).
  { apply first_failure_agree. destruct Hagree as [Hc H]. split; [exact Hc |].
    intros i Hi. apply H. lia. }
  pose proof (draws_made_le failure_probs g1) as Hle.
  destruct Hagree as [Hc H]. unfold after_trial, draws_made in *. rewrite <- Hff.
  set (d := match first_failure failure_probs g1 with
            | Some j => j + 1 | None => length failure_probs end) in *.
  split; [cbn; lia |].
  intros i Hi. unfold draw_for in *. cbn [advance tape cursor].
  replace (d + cursor g1 + i) with (cursor g1 + (d + i)) by lia.
  replace (d + cursor g2 + i) with (cursor g2 + (d + i)) by lia.
  apply H. lia.
Qed.

Lemma trials_agree (failure_probs : list float) (n : nat) (g1 g2 : Generator) :
  agree_on (n * length failure_probs) g1 g2 ->
  successful_trials failure_probs g1 n = successful_trials failure_probs g2 n /\
  cursor (trial_state failure_probs g1 n) = cursor (trial_state failure_probs g2 n).
Proof.
  revert g1 g2. induction n as [| n IH]; intros g1 g2 Hagree.
  - split; [reflexivity | apply Hagree].
  - cbn [Nat.mul] in Hagree.
    assert (Hff : first_failure failure_probs g1 = first_failure failure_probs g2).
    { apply first_failure_agree. destruct Hagree as [Hc H]. split; [exact Hc |].
      intros i Hi. apply H. lia. }
    destruct (IH _ _ (after_trial_agree failure_probs g1 g2 _ Hagree)) as [Hs Hc].
    rewrite !successful_trials_succ, !trial_state_succ, Hs, Hc.
    unfold trial_succeeds. rewrite Hff. split; reflexivity.
Qed.

(** ** Properties of [analytical_reliability] *)

(** X1: on a vector of [[0, 1]] in which some subsystem fails surely
    ([p == 1.0]), the analytical reliability is zero ([== 0.0]). *)
Theorem analytical_reliability_sure_failure (failure_probs : list float)
    (g : Generator) :
  forallb in_unit failure_probs = true ->
  existsb (fun p => (p =? 1)%float) failure_probs = true ->
  (fst (analytical_reliability failure_probs g) =? 0)%float = true.
Proof.
  intros Hps Hex. rewrite analytical_reliability_run. cbn [fst].
  apply N_zero_eqb.
  - apply product_loop_unit; [exact Hps | reflexivity].
  - apply product_loop_sure_failure; [exact Hps | reflexivity | exact Hex].
Qed.

Lemma analytical_reliability_sure_failure_witness :
  forallb in_unit [0.01; 1.0; 0.02]%float = true /\
  existsb (fun p => (p =? 1)%float) [0.01; 1.0; 0.02]%float = true /\
  (fst (analytical_reliability [0.01; 1.0; 0.02]%float example_generator) =? 0)%float
  = true.
Proof.
  split; [reflexivity |]. split; [reflexivity |].
  apply (analytical_reliability_sure_failure [0.01; 1.0; 0.02]%float example_generator);
    reflexivity.
Defined.

(** X2: a NaN among the failure probabilities is not rejected: the
    analytical reliability is then NaN. *)
Theorem analytical_reliability_nan (failure_probs : list float) (g : Generator) :
  existsb is_nan failure_probs = true ->
  is_nan (fst (analytical_reliability failure_probs g)) = true.
Proof.
  intros H. rewrite analytical_reliability_run. cbn [fst].
  rewrite product_loop_nan_in by exact H. reflexivity.
Qed.

Lemma analytical_reliability_nan_witness :
  existsb is_nan [0.01; nan; 0.02]%float = true /\
  is_nan (fst (analytical_reliability [0.01; nan; 0.02]%float example_generator))
  = true.
Proof.
  split; [reflexivity |].
  apply (analytical_reliability_nan [0.01; nan; 0.02]%float example_generator).
  reflexivity.
Defined.



(** X4: when every failure probability is zero ([p == 0.0]), the
    analytical reliability is exactly [1.0]. *)
Theorem analytical_reliability_never_failing (failure_probs : list float)
    (g : Generator) :
  forallb (fun p => (p =? 0)%float) failure_probs = true ->
  fst (analytical_reliability failure_probs g) = 1.0%float.
Proof.
  intros H. rewrite analytical_reliability_run. cbn [fst].
  apply product_loop_all_zero, H.
Qed.

Lemma analytical_reliability_never_failing_witness :
  forallb (fun p => (p =? 0)%float) [0.0; -0.0; 0.0]%float = true /\
  fst (analytical_reliability [0.0; -0.0; 0.0]%float example_generator) = 1.0%float.
Proof.
  split; [reflexivity |].
  apply (analytical_reliability_never_failing [0.0; -0.0; 0.0]%float example_generator).
  reflexivity.
Defined.

(** X5: on a vector of [[0, 1]], the analytical reliability is at most
    the probability [1.0 - p] that any one subsystem works. *)
Theorem analytical_reliability_weakest_link (failure_probs : list float)
    (i : nat) (g : Generator) :
  forallb in_unit failure_probs = true -> i < length failure_probs ->
  (fst (analytical_reliability failure_probs g) <=?
   1.0 - nth i failure_probs nan)%float = true.
Proof.
  intros Hps Hi. rewrite analytical_reliability_run. cbn [fst].
  pose proof (forallb_nth_unit failure_probs i Hps Hi) as Hp.
  destruct (unit_sub _ Hp) as [Hw _].
  rewrite unit_leb; [| apply product_loop_unit; [exact Hps | reflexivity] | exact Hw].
  apply Z.leb_le, product_loop_weakest; [exact Hps | reflexivity | exact Hi].
Qed.

Lemma analytical_reliability_weakest_link_witness :
  forallb in_unit example_probs = true /\ 4 < length example_probs /\
  (fst (analytical_reliability example_probs example_generator) <=?
   1.0 - nth 4 example_probs nan)%float = true.
Proof.
  assert (Hi : 4 < length example_probs) by (cbn; lia).
  split; [reflexivity |]. split; [exact Hi |].
  apply (analytical_reliability_weakest_link example_probs 4 example_generator);
    [reflexivity | exact Hi].
Defined.

(** ** Properties of [monte_carlo_reliability] *)

(** X6: a call leaves the tape of the generator as it is and moves its
    cursor by the draws made: at most [len(failure_probs)] a trial, and at
    least one a trial when there is a subsystem. *)
Theorem monte_carlo_reliability_draws (failure_probs : list float)
    (n_samples : Z) (g : Generator) :
  exists d : nat,
    snd (monte_carlo_reliability failure_probs n_samples g) = advance d g /\
    d <= Z.to_nat n_samples * length failure_probs /\
    (failure_probs <> [] -> Z.to_nat n_samples <= d).
Proof.
  rewrite monte_carlo_reliability_run. cbn [snd]. apply trial_state_advance.
Qed.

(** X7: the estimate depends on the generator through the draws it can
    read only: two generators at the same position whose next
    [n_samples * len(failure_probs)] draws coincide give the same result
    and end at the same position. *)
Theorem monte_carlo_reliability_reads (failure_probs : list float)
    (n_samples : Z) (g1 g2 : Generator) :
  agree_on (Z.to_nat n_samples * length failure_probs) g1 g2 ->
  fst (monte_carlo_reliability failure_probs n_samples g1) =
  fst (monte_carlo_reliability failure_probs n_samples g2) /\
  cursor (snd (monte_carlo_reliability failure_probs n_samples g1)) =
  cursor (snd (monte_carlo_reliability failure_probs n_samples g2)).
Proof.
  intros Hagree. rewrite !monte_carlo_reliability_run. cbn [fst snd].
  destruct (trials_agree failure_probs _ g1 g2 Hagree) as [Hs Hc].
  rewrite Hs. split; [reflexivity | exact Hc].
Qed.

Lemma monte_carlo_reliability_reads_witness :
  agree_on (Z.to_nat 4 * length [0.01; 0.02]%float) example_generator other_generator /\
  fst (monte_carlo_reliability [0.01; 0.02]%float 4 example_generator) =
  fst (monte_carlo_reliability [0.01; 0.02]%float 4 other_generator).
Proof.
  assert (H : agree_on (Z.to_nat 4 * length [0.01; 0.02]%float)
                example_generator other_generator).
  { split; [reflexivity |]. intros i Hi. cbn in Hi.
    do 8 (destruct i as [| i]; [reflexivity |]). lia. }
  split; [exact H |].
  apply (monte_carlo_reliability_reads [0.01; 0.02]%float 4
           example_generator other_generator H).
Defined.

(** X8: two calls in a row with [n1] and [n2] trials leave the generator
    where one call with [n1 + n2] trials leaves it, and the successful
    trials of the long run are those of the two short ones. *)
Theorem monte_carlo_reliability_split (failure_probs : list float)
    (n1 n2 : Z) (g : Generator) :
  (0 <= n1)%Z -> (0 <= n2)%Z ->
  snd (monte_carlo_reliability failure_probs (n1 + n2) g) =
  snd (monte_carlo_reliability failure_probs n2
         (snd (monte_carlo_reliability failure_probs n1 g))) /\
  successful_trials failure_probs g (Z.to_nat (n1 + n2)) =
  (successful_trials failure_probs g (Z.to_nat n1) +
   successful_trials failure_probs
     (snd (monte_carlo_reliability failure_probs n1 g)) (Z.to_nat n2))%Z.
Proof.
  intros H1 H2. rewrite !monte_carlo_reliability_run. cbn [snd].
  rewrite Z2Nat.inj_add by lia.
  split; [apply trial_state_add | apply successful_trials_add].
Qed.

Lemma monte_carlo_reliability_split_witness :
  (0 <= 3)%Z /\ (0 <= 4)%Z /\
  snd (monte_carlo_reliability example_probs (3 + 4) example_generator) =
  snd (monte_carlo_reliability example_probs 4
         (snd (monte_carlo_reliability example_probs 3 example_generator))).
Proof.
  split; [lia |]. split; [lia |].
  apply (monte_carlo_reliability_split example_probs 3 4 example_generator); lia.
Defined.

(** X9: when some subsystem fails surely ([p == 1.0]) and every draw is
    below [1.0], every trial fails and the estimate is [0.0]. *)
Theorem monte_carlo_reliability_sure_failure (failure_probs : list float)
    (n_samples : Z) (g : Generator) :
  (0 < n_samples)%Z ->
  existsb (fun p => (p =? 1)%float) failure_probs = true ->
  (forall i, (tape g i <? 1)%float = true) ->
  fst (monte_carlo_reliability failure_probs n_samples g) = Ok 0.0%float.
Proof.
  intros Hn Hex Hdraws. rewrite monte_carlo_reliability_run. cbn [fst].
  rewrite (successful_trials_const failure_probs false).
  - apply int_truediv_zero_pos, Hn.
  - intros g' Hg'. apply sure_failure_trial; [exact Hex |].
    intros i. rewrite Hg'. apply Hdraws.
Qed.

Lemma monte_carlo_reliability_sure_failure_witness :
  (0 < 5)%Z /\
  existsb (fun p => (p =? 1)%float) [0.01; 1.0]%float = true /\
  (forall i, (tape example_generator i <? 1)%float = true) /\
  fst (monte_carlo_reliability [0.01; 1.0]%float 5 example_generator) = Ok 0.0%float.
Proof.
  assert (H : forall i, (tape example_generator i <? 1)%float = true).
  { intros i. cbn [example_generator tape].
    destruct (Nat.eqb (Nat.modulo i 3) 0); reflexivity. }
  split; [lia |]. split; [reflexivity |]. split; [exact H |].
  apply (monte_carlo_reliability_sure_failure [0.01; 1.0]%float 5 example_generator);
    [lia | reflexivity | exact H].
Defined.

(** X10: when every failure probability is zero ([p == 0.0]) and no draw
    is negative, every trial succeeds: the estimate is exactly [1.0], and
    all the [n_samples * len(failure_probs)] draws are made. *)
Theorem monte_carlo_reliability_never_failing (failure_probs : list float)
    (n_samples : Z) (g : Generator) :
  (0 < n_samples)%Z ->
  forallb (fun p => (p =? 0)%float) failure_probs = true ->
  (forall i, (0 <=? tape g i)%float = true) ->
  monte_carlo_reliability failure_probs n_samples g =
  (Ok 1.0%float, advance (Z.to_nat n_samples * length failure_probs) g).
Proof.
  intros Hn Hps Hdraws. rewrite monte_carlo_reliability_run.
  assert (Hnone : forall g', tape g' = tape g ->
                             first_failure failure_probs g' = None).
  { intros g' Hg'. apply no_failure_trial; [exact Hps |].
    intros i. rewrite Hg'. apply Hdraws. }
  rewrite (successful_trials_const failure_probs true).
  - rewrite Z2Nat.id, int_truediv_same, trial_state_all_draws by (assumption || lia).
    reflexivity.
  - intros g' Hg'. unfold trial_succeeds. now rewrite Hnone.
Qed.

Lemma monte_carlo_reliability_never_failing_witness :
  (0 < 5)%Z /\
  forallb (fun p => (p =? 0)%float) [0.0; 0.0]%float = true /\
  (forall i, (0 <=? tape example_generator i)%float = true) /\
  monte_carlo_reliability [0.0; 0.0]%float 5 example_generator =
  (Ok 1.0%float, advance 10 example_generator).
Proof.
  assert (H : forall i, (0 <=? tape example_generator i)%float = true).
  { intros i. cbn [example_generator tape].
    destruct (Nat.eqb (Nat.modulo i 3) 0); reflexivity. }
  split; [lia |]. split; [reflexivity |]. split; [exact H |].
  apply (monte_carlo_reliability_never_failing [0.0; 0.0]%float 5 example_generator);
    [lia | reflexivity | exact H].
Defined.

(** X11: the only exception a call raises is [ZeroDivisionError], and it
    raises it exactly when [n_samples] is zero. *)
Theorem monte_carlo_reliability_raises (failure_probs : list float)
    (n_samples : Z) (g : Generator) (e : exn) :
  fst (monte_carlo_reliability failure_probs n_samples g) = Raise e <->
  n_samples = 0%Z /\ e = ZeroDivisionError.
Proof.
  rewrite monte_carlo_reliability_run. cbn [fst].
  destruct (Z.lt_trichotomy n_samples 0) as [Hneg | [Hz | Hpos]].
  - replace (Z.to_nat n_samples) with 0 by lia.
    change (successful_trials failure_probs g 0) with 0%Z.
    rewrite int_truediv_zero_neg by exact Hneg.
    split; [discriminate | intros [Hn _]; lia].
  - subst n_samples. cbn. split.
    + intros H. injection H as <-. split; reflexivity.
    + intros [_ ->]. reflexivity.
  - pose proof (successful_trials_bounds failure_probs g (Z.to_nat n_samples)) as Hb.
    destruct (int_truediv_unit
                (successful_trials failure_probs g (Z.to_nat n_samples)) n_samples)
      as (ratio & -> & _); [lia | lia |].
    split; [discriminate | intros [Hn _]; lia].
Qed.
